(** * CU PathFinder: the campus graph and its four search strategies

    A shallow embedding of [backend/campus_graph.py] and
    [backend/search_algorithms.py], and the properties of breadth-first,
    depth-first, uniform-cost and A* search proved over it.

    Conventions of the embedding:
    - Python [int] is [Z]; Python [float] is IEEE 754 binary64, taken from
      [SpecFloat] at precision 53 and maximal exponent 1024;
    - a [dict] that is only looked up is a [gmap]; a [dict] that is iterated
      ([edges[node].items()]) is an association list in insertion order;
    - the [visited] set is a [gset string];
    - every [while] loop is a step function on the loop's variables, run
      by [while_loop] under a fuel bound computed from the graph. *)

From Stdlib Require Import ZArith String List Lia.
From Stdlib Require Import Floats.SpecFloat Structures.OrderedTypeEx.
From stdpp Require Import gmap strings list fin_maps fin_sets sorting.

Local Open Scope string_scope.
Local Open Scope Z_scope.
Local Open Scope list_scope.

(* [set_solver] clears hypotheses by name and warns when one is gone. *)
#[local] Set Warnings "-clear-no-such-hyp".

(** ** Numbers *)

(** A cost as Python holds it: an [int], or [float('inf')]. *)
Inductive distance : Type :=
  | Finite (z : Z)
  | Infinite.

#[global] Instance distance_eq_dec : EqDecision distance.
Proof. solve_decision. Defined.

Module Float.

Definition float : Type := spec_float.

Definition prec : Z := 53.
Definition emax : Z := 1024.

(** [float(n)] for an integer [n]: the nearest double, ties to even.
    CPython raises [OverflowError] for an integer beyond the range of a
    double (2^1024 and more); the embedding rounds such an integer to
    infinity, and is meant for graphs whose pixel coordinates and metre
    distances are far below. *)
Definition of_int (n : Z) : float := binary_normalize prec emax n 0 false.

Definition inf : float := S754_infinity false.
Definition zero : float := S754_zero false.

Definition add : float -> float -> float := SFadd prec emax.
Definition mul : float -> float -> float := SFmul prec emax.
Definition div : float -> float -> float := SFdiv prec emax.
Definition sqrt : float -> float := SFsqrt prec emax.

Definition eqb : float -> float -> bool := SFeqb.
Definition ltb : float -> float -> bool := SFltb.



End Float.

(** ** Python's orderings on the values kept in the heaps *)

(** [a < b] on two lists of strings: lexicographic, a proper prefix first. *)
Fixpoint list_ltb (a b : list string) : bool :=
  match a, b with
  | _, [] => false
  | [], _ :: _ => true
  | x :: a', y :: b' =>
      if String.eqb x y then list_ltb a' b' else String.ltb x y
  end.

(** ** Insertion-ordered dictionaries *)

(** [d[k] = v] on a dict kept in insertion order: an existing key keeps its
    place and takes the new value, a new key goes to the end. *)
Fixpoint dict_set {V : Type} (k : string) (v : V) (d : list (string * V))
  : list (string * V) :=
  match d with
  | [] => [(k, v)]
  | (k', v') :: d' =>
      if String.eqb k' k then (k, v) :: d' else (k', v') :: dict_set k v d'
  end.

(** [d.get(k)] *)
Fixpoint dict_get {V : Type} (k : string) (d : list (string * V)) : option V :=
  match d with
  | [] => None
  | (k', v) :: d' => if String.eqb k' k then Some v else dict_get k d'
  end.

(** What makes an association list a dict: no key twice. *)
Definition dict_wf {V : Type} (d : list (string * V)) : Prop :=
  NoDup (d.*1).

(** ** campus_graph.py *)

(** The attributes of [CampusGraph] the searches read.  [nodes] maps a
    name to its properties, of which the coordinates are kept;
    [building_info] (opening hours, descriptions) is not read by any
    search and is left out. *)
Record CampusGraph : Type := {
  nodes : gmap string (Z * Z);
  edges : gmap string (list (string * Z));
  coordinates : gmap string (Z * Z)
}.

Section GraphQueries.

Variable self : CampusGraph.

(** [self.edges.get(node, {})] *)
Definition get_neighbors (node : string) : list (string * Z) :=
  default [] (edges self !! node).

(** [self.edges.get(node1, {}).get(node2)] *)
Definition get_distance (node1 node2 : string) : option Z :=
  dict_get node2 (default [] (edges self !! node1)).

(** [node in self.nodes] *)
Definition is_valid_node (node : string) : bool :=
  bool_decide (is_Some (nodes self !! node)).

Definition scale_x : Float.float :=
  Float.div (Float.of_int 1000) (Float.of_int 824).
Definition scale_y : Float.float :=
  Float.div (Float.of_int 2000) (Float.of_int 1741).

Definition euclidean_distance (node1 node2 : string) : Float.float :=
  match coordinates self !! node1, coordinates self !! node2 with
  | Some (x1, y1), Some (x2, y2) =>
      let dx := Float.mul (Float.of_int (x2 - x1)) scale_x in
      let dy := Float.mul (Float.of_int (y2 - y1)) scale_y in
      Float.sqrt (Float.add (Float.mul dx dx) (Float.mul dy dy))
  | _, _ => Float.inf
  end.

(** The [for] loop of [get_path_distance], with [total_distance] as
    accumulator: it leaves with infinity at the first pair of
    consecutive nodes that has no edge. *)
Fixpoint path_distance_loop (total_distance : Z) (path : list string) : distance :=
  match path with
  | a :: (b :: _) as rest =>
      match get_distance a b with
      | None => Infinite
      | Some distance => path_distance_loop (total_distance + distance) rest
      end
  | _ => Finite total_distance
  end.

Definition get_path_distance (path : list string) : distance :=
  if (length path <? 2)%nat then Finite 0 else path_distance_loop 0 path.

End GraphQueries.

(** *** The campus of [_initialize_campus] *)

Definition campus_coordinates : list (string * (Z * Z)) :=
  [ ("Entry Gate", (296, 1724)); ("Main Gate", (379, 1458));
    ("Security Office", (296, 1473)); ("Flag Post", (327, 1431));
    ("Library", (388, 1393)); ("Block A", (353, 1384));
    ("Block B", (349, 1223)); ("Auditorium", (353, 1384));
    ("Food Court", (445, 829)); ("Gym", (445, 829));
    ("Badminton Court", (445, 829)); ("Boys Hostel", (737, 820));
    ("Girls Hostel", (807, 746)); ("Mart", (785, 779));
    ("Cricket Ground", (157, 131)); ("Football Ground", (78, 371));
    ("Volleyball Court", (567, 58)); ("Basketball Court", (371, 76));
    ("Tennis Court", (567, 58)); ("Guest House", (126, 1263));
    ("Pottery Making Area", (22, 1348)); ("Faculty Apartment", (514, 1121));
    ("DG Yard", (680, 1229)); ("Water Treatment Area", (534, 822));
    ("Exit Gate", (453, 1729)); ("Playing Ground", (83, 1602));
    ("Medical Center", (445, 900)); ("Admin Office", (379, 1458));
    ("Student Center", (353, 1300)); ("Canteen", (438, 1343)) ].

Definition campus_connections : list (string * string * Z) :=
  [ ("Entry Gate", "Security Office", 180);
    ("Security Office", "Main Gate", 70);
    ("Main Gate", "Flag Post", 70);
    ("Main Gate", "Block A", 80);
    ("Main Gate", "Auditorium", 80);
    ("Main Gate", "Library", 80);
    ("Library", "Canteen", 50);
    ("Block A", "Block B", 120);
    ("Block B", "Food Court", 230);
    ("Food Court", "Gym", 35);
    ("Food Court", "Badminton Court", 45);
    ("Food Court", "Boys Hostel", 260);
    ("Food Court", "Girls Hostel", 345);
    ("Boys Hostel", "Mart", 70);
    ("Mart", "Girls Hostel", 70);
    ("Boys Hostel", "Cricket Ground", 560);
    ("Cricket Ground", "Football Ground", 100);
    ("Cricket Ground", "Volleyball Court", 80);
    ("Cricket Ground", "Basketball Court", 80);
    ("Cricket Ground", "Tennis Court", 80);
    ("Block A", "Guest House", 250);
    ("Block A", "Pottery Making Area", 230);
    ("Block B", "Guest House", 330);
    ("Block B", "Faculty Apartment", 165);
    ("Block A", "DG Yard", 350);
    ("Block A", "Water Treatment Area", 503);
    ("Block A", "Boys Hostel", 600);
    ("Main Gate", "Exit Gate", 140);
    ("Block A", "Student Center", 120);
    ("Block B", "Student Center", 100);
    ("Student Center", "Library", 90);
    ("Food Court", "Medical Center", 75);
    ("Medical Center", "Water Treatment Area", 80);
    ("Admin Office", "Main Gate", 50);
    ("Playing Ground", "Guest House", 150);
    ("Entry Gate", "Playing Ground", 200);
    ("Volleyball Court", "Basketball Court", 50);
    ("Volleyball Court", "Tennis Court", 20);
    ("Basketball Court", "Tennis Court", 40);
    ("Boys Hostel", "Girls Hostel", 120);
    ("Girls Hostel", "Mart", 50);
    ("DG Yard", "Water Treatment Area", 200);
    ("Water Treatment Area", "Food Court", 100) ].

(** The loop over [self.coordinates.keys()]: every name becomes a node
    with an empty adjacency dict. *)
Definition init_nodes (coords : list (string * (Z * Z))) (g : CampusGraph)
  : CampusGraph :=
  foldl (fun g '(node_name, xy) =>
           {| nodes := <[node_name := xy]> (nodes g);
              edges := <[node_name := []]> (edges g);
              coordinates := coordinates g |})
        g coords.

(** [_add_campus_connections]: both directions of every connection whose
    ends are nodes; a pair listed twice keeps its place in the adjacency
    dict and takes the later distance. *)
Definition add_connections (connections : list (string * string * Z))
    (g : CampusGraph) : CampusGraph :=
  foldl (fun g '(node1, node2, d) =>
           if is_valid_node g node1 && is_valid_node g node2 then
             {| nodes := nodes g;
                edges := alter (dict_set node1 d) node2
                           (alter (dict_set node2 d) node1 (edges g));
                coordinates := coordinates g |}
           else g)
        g connections.

(** [CampusGraph()] *)
Definition campus : CampusGraph :=
  add_connections campus_connections
    (init_nodes campus_coordinates
       {| nodes := ∅; edges := ∅;
          coordinates := list_to_map campus_coordinates |}).

(** ** search_algorithms.py *)

Record SearchResult : Type := {
  path : list string;
  cost : distance;
  nodes_explored : list string;
  exploration_order : list string;
  algorithm : string;
  success : bool
}.

(** [len(set(nodes_explored))] *)
Definition num_nodes_explored (r : SearchResult) : nat :=
  size (list_to_set (nodes_explored r) : gset string).

(** *** Loops *)

(** One turn of a [while] loop either goes round again with new values
    of the loop's variables or leaves the function with a result. *)
Inductive step (S R : Type) : Type :=
  | Continue (s : S)
  | Return (r : R).
Arguments Continue {S R} s.
Arguments Return {S R} r.

Fixpoint while_loop {S R : Type} (body : S -> step S R) (fuel : nat) (s : S)
  : option R :=
  match fuel with
  | O => None
  | Datatypes.S fuel' =>
      match body s with
      | Return r => Some r
      | Continue s' => while_loop body fuel' s'
      end
  end.

(** The variables the four loops share; [E] is the type of the tuples
    kept in the frontier (queue, stack or heap). *)
Record search_state (E : Type) : Type := {
  frontier : list E;
  visited : gset string;
  exploration_order_so_far : list string;
  nodes_explored_so_far : list string
}.
Arguments frontier {E} s.
Arguments visited {E} s.
Arguments exploration_order_so_far {E} s.
Arguments nodes_explored_so_far {E} s.

(** No loop turns more often than once per tuple ever pushed, and a
    node pushes its neighbours once: one turn for the start tuple, one
    per adjacency entry, and the turn that finds the frontier empty. *)
Definition search_fuel (g : CampusGraph) : nat :=
  2 + map_fold (fun _ adj n => length adj + n)%nat 0%nat (edges g).

(** *** heapq *)

(** [heapq] keeps a binary heap in a list.  What the searches rely on is
    its contract: [heappop] takes out the least item.  The items are
    tuples under Python's tuple order, which is total on the tuples
    pushed here, so the item popped is the same whatever the layout of
    the heap: the embedding keeps the items in a list and takes the
    least out. *)
Section Heapq.

Context {E : Type} (lt : E -> E -> bool).

Definition heappush (heap : list E) (item : E) : list E := heap ++ [item].

(** The least of [x :: heap] and the other items. *)
Fixpoint take_least (x : E) (heap : list E) : E * list E :=
  match heap with
  | [] => (x, [])
  | y :: heap' =>
      let '(m, rest) := take_least y heap' in
      if lt m x then (m, x :: rest) else (x, heap)
  end.

Definition heappop (heap : list E) : option (E * list E) :=
  match heap with
  | [] => None
  | x :: heap' => Some (take_least x heap')
  end.

End Heapq.

(** Python's [<] on the tuples [(cost, node, path)] of the UCS heap: the
    first component that differs decides. *)
Definition ucs_lt (a b : Z * string * list string) : bool :=
  let '(cost1, node1, path1) := a in
  let '(cost2, node2, path2) := b in
  if negb (cost1 =? cost2) then cost1 <? cost2
  else if negb (String.eqb node1 node2) then String.ltb node1 node2
  else list_ltb path1 path2.

(** The same on the tuples [(f_cost, g_cost, node, path)] of the A* heap. *)
Definition astar_lt (a b : Float.float * Z * string * list string) : bool :=
  let '(f1, g1, node1, path1) := a in
  let '(f2, g2, node2, path2) := b in
  if negb (Float.eqb f1 f2) then Float.ltb f1 f2
  else if negb (g1 =? g2) then g1 <? g2
  else if negb (String.eqb node1 node2) then String.ltb node1 node2
  else list_ltb path1 path2.

Section SearchAlgorithms.

Variable graph : CampusGraph.

(** [SearchResult([], 0, nodes_explored, exploration_order, name, False)] *)
Definition no_path (name : string) (explored order : list string)
  : SearchResult :=
  {| path := []; cost := Finite 0; nodes_explored := explored;
     exploration_order := order; algorithm := name; success := false |}.

(** [SearchResult([start], 0, [start], [start], name)] *)
Definition trivial_path (name start : string) : SearchResult :=
  {| path := [start]; cost := Finite 0; nodes_explored := [start];
     exploration_order := [start]; algorithm := name; success := true |}.

Definition initial_state {E : Type} (e : E) : search_state E :=
  {| frontier := [e]; visited := ∅;
     exploration_order_so_far := []; nodes_explored_so_far := [] |}.

(** **** Breadth-first search *)

(** The body of the [for] loop over the neighbours of the node being
    expanded. *)
Definition bfs_push (visited : gset string) (path : list string) (cost : Z)
    (queue : list (string * list string * Z)) (item : string * Z)
  : list (string * list string * Z) :=
  let '(neighbor, edge_cost) := item in
  if decide (neighbor ∈ visited) then queue
  else
    let new_path := path ++ [neighbor] in
    let new_cost := cost + edge_cost in
    queue ++ [(neighbor, new_path, new_cost)].

Definition bfs_body (goal : string)
    (s : search_state (string * list string * Z))
  : step (search_state (string * list string * Z)) SearchResult :=
  match frontier s with
  | [] => Return (no_path "BFS" (nodes_explored_so_far s)
                    (exploration_order_so_far s))
  | (current_node, path, cost) :: queue =>
      if decide (current_node ∈ visited s) then
        Continue {| frontier := queue; visited := visited s;
                    exploration_order_so_far := exploration_order_so_far s;
                    nodes_explored_so_far := nodes_explored_so_far s |}
      else
        let visited := {[current_node]} ∪ visited s in
        let exploration_order := exploration_order_so_far s ++ [current_node] in
        let nodes_explored := nodes_explored_so_far s ++ [current_node] in
        if decide (current_node = goal) then
          Return {| path := path; cost := get_path_distance graph path;
                    nodes_explored := nodes_explored;
                    exploration_order := exploration_order;
                    algorithm := "BFS"; success := true |}
        else
          Continue
            {| frontier :=
                 foldl (bfs_push visited path cost) queue
                       (get_neighbors graph current_node);
               visited := visited;
               exploration_order_so_far := exploration_order;
               nodes_explored_so_far := nodes_explored |}
  end.

Definition breadth_first_search (start goal : string) : option SearchResult :=
  if negb (is_valid_node graph start) || negb (is_valid_node graph goal) then
    Some (no_path "BFS" [] [])
  else if decide (start = goal) then Some (trivial_path "BFS" start)
  else while_loop (bfs_body goal) (search_fuel graph)
         (initial_state (start, [start], 0)).

(** **** Depth-first search *)

(** The stack has its top at the head of the list. *)
Definition dfs_push (visited : gset string) (path : list string) (cost : Z)
    (stack : list (string * list string * Z)) (item : string * Z)
  : list (string * list string * Z) :=
  let '(neighbor, edge_cost) := item in
  if decide (neighbor ∈ visited) then stack
  else
    let new_path := path ++ [neighbor] in
    let new_cost := cost + edge_cost in
    (neighbor, new_path, new_cost) :: stack.

Definition dfs_body (goal : string)
    (s : search_state (string * list string * Z))
  : step (search_state (string * list string * Z)) SearchResult :=
  match frontier s with
  | [] => Return (no_path "DFS" (nodes_explored_so_far s)
                    (exploration_order_so_far s))
  | (current_node, path, cost) :: stack =>
      if decide (current_node ∈ visited s) then
        Continue {| frontier := stack; visited := visited s;
                    exploration_order_so_far := exploration_order_so_far s;
                    nodes_explored_so_far := nodes_explored_so_far s |}
      else
        let visited := {[current_node]} ∪ visited s in
        let exploration_order := exploration_order_so_far s ++ [current_node] in
        let nodes_explored := nodes_explored_so_far s ++ [current_node] in
        if decide (current_node = goal) then
          Return {| path := path; cost := get_path_distance graph path;
                    nodes_explored := nodes_explored;
                    exploration_order := exploration_order;
                    algorithm := "DFS"; success := true |}
        else
          let neighbors := reverse (get_neighbors graph current_node) in
          Continue
            {| frontier := foldl (dfs_push visited path cost) stack neighbors;
               visited := visited;
               exploration_order_so_far := exploration_order;
               nodes_explored_so_far := nodes_explored |}
  end.

Definition depth_first_search (start goal : string) : option SearchResult :=
  if negb (is_valid_node graph start) || negb (is_valid_node graph goal) then
    Some (no_path "DFS" [] [])
  else if decide (start = goal) then Some (trivial_path "DFS" start)
  else while_loop (dfs_body goal) (search_fuel graph)
         (initial_state (start, [start], 0)).

(** **** Uniform-cost search *)

Definition ucs_push (visited : gset string) (path : list string)
    (current_cost : Z) (priority_queue : list (Z * string * list string))
    (item : string * Z) : list (Z * string * list string) :=
  let '(neighbor, edge_cost) := item in
  if decide (neighbor ∈ visited) then priority_queue
  else
    let new_cost := current_cost + edge_cost in
    let new_path := path ++ [neighbor] in
    heappush priority_queue (new_cost, neighbor, new_path).

Definition ucs_body (goal : string)
    (s : search_state (Z * string * list string))
  : step (search_state (Z * string * list string)) SearchResult :=
  match heappop ucs_lt (frontier s) with
  | None => Return (no_path "UCS" (nodes_explored_so_far s)
                      (exploration_order_so_far s))
  | Some ((current_cost, current_node, path), priority_queue) =>
      if decide (current_node ∈ visited s) then
        Continue {| frontier := priority_queue; visited := visited s;
                    exploration_order_so_far := exploration_order_so_far s;
                    nodes_explored_so_far := nodes_explored_so_far s |}
      else
        let visited := {[current_node]} ∪ visited s in
        let exploration_order := exploration_order_so_far s ++ [current_node] in
        let nodes_explored := nodes_explored_so_far s ++ [current_node] in
        if decide (current_node = goal) then
          Return {| path := path; cost := Finite current_cost;
                    nodes_explored := nodes_explored;
                    exploration_order := exploration_order;
                    algorithm := "UCS"; success := true |}
        else
          Continue
            {| frontier :=
                 foldl (ucs_push visited path current_cost) priority_queue
                       (get_neighbors graph current_node);
               visited := visited;
               exploration_order_so_far := exploration_order;
               nodes_explored_so_far := nodes_explored |}
  end.

Definition uniform_cost_search (start goal : string) : option SearchResult :=
  if negb (is_valid_node graph start) || negb (is_valid_node graph goal) then
    Some (no_path "UCS" [] [])
  else if decide (start = goal) then Some (trivial_path "UCS" start)
  else while_loop (ucs_body goal) (search_fuel graph)
         (initial_state (0, start, [start])).

(** **** A* search *)

(** A* carries the dict [g_costs] next to the variables of the others. *)
Definition astar_state : Type :=
  search_state (Float.float * Z * string * list string) * gmap string Z.

(** The body of the [for] loop: a neighbour is pushed unless a cost no
    greater is on record for it in [g_costs]. *)
Definition astar_push (goal : string) (visited : gset string)
    (path : list string) (g_cost : Z)
    (acc : list (Float.float * Z * string * list string) * gmap string Z)
    (item : string * Z)
  : list (Float.float * Z * string * list string) * gmap string Z :=
  let '(priority_queue, g_costs) := acc in
  let '(neighbor, edge_cost) := item in
  if decide (neighbor ∈ visited) then (priority_queue, g_costs)
  else
    let new_g_cost := g_cost + edge_cost in
    if match g_costs !! neighbor with
       | Some best => best <=? new_g_cost
       | None => false
       end
    then (priority_queue, g_costs)
    else
      let g_costs := <[neighbor := new_g_cost]> g_costs in
      let h_cost := euclidean_distance graph neighbor goal in
      let f_cost := Float.add (Float.of_int new_g_cost) h_cost in
      let new_path := path ++ [neighbor] in
      (heappush priority_queue (f_cost, new_g_cost, neighbor, new_path),
       g_costs).

Definition astar_body (goal : string) (sg : astar_state)
  : step astar_state SearchResult :=
  let '(s, g_costs) := sg in
  match heappop astar_lt (frontier s) with
  | None => Return (no_path "A*" (nodes_explored_so_far s)
                      (exploration_order_so_far s))
  | Some ((f_cost, g_cost, current_node, path), priority_queue) =>
      if decide (current_node ∈ visited s) then
        Continue ({| frontier := priority_queue; visited := visited s;
                     exploration_order_so_far := exploration_order_so_far s;
                     nodes_explored_so_far := nodes_explored_so_far s |},
                  g_costs)
      else
        let visited := {[current_node]} ∪ visited s in
        let exploration_order := exploration_order_so_far s ++ [current_node] in
        let nodes_explored := nodes_explored_so_far s ++ [current_node] in
        if decide (current_node = goal) then
          Return {| path := path; cost := Finite g_cost;
                    nodes_explored := nodes_explored;
                    exploration_order := exploration_order;
                    algorithm := "A*"; success := true |}
        else
          let '(priority_queue, g_costs) :=
            foldl (astar_push goal visited path g_cost)
                  (priority_queue, g_costs)
                  (get_neighbors graph current_node) in
          Continue ({| frontier := priority_queue; visited := visited;
                       exploration_order_so_far := exploration_order;
                       nodes_explored_so_far := nodes_explored |},
                    g_costs)
  end.

Definition a_star_search (start goal : string) : option SearchResult :=
  if negb (is_valid_node graph start) || negb (is_valid_node graph goal) then
    Some (no_path "A*" [] [])
  else if decide (start = goal) then Some (trivial_path "A*" start)
  else while_loop (astar_body goal) (search_fuel graph)
         (initial_state (euclidean_distance graph start goal, 0, start,
                         [start]),
          {[ start := 0 ]}).

End SearchAlgorithms.

(** The four strategies by name, as [compare_algorithms] lists them. *)
Inductive strategy : Type := BFS | DFS | UCS | AStar.

Definition strategy_name (st : strategy) : string :=
  match st with
  | BFS => "BFS" | DFS => "DFS" | UCS => "UCS" | AStar => "A*"
  end.

Definition search (st : strategy) (graph : CampusGraph) (start goal : string)
  : option SearchResult :=
  match st with
  | BFS => breadth_first_search graph start goal
  | DFS => depth_first_search graph start goal
  | UCS => uniform_cost_search graph start goal
  | AStar => a_star_search graph start goal
  end.

(** ** Calls *)

(** A call as its caller sees it.  [search_algorithms.py] has no [raise]:
    a call that ends hands back a [SearchResult]. *)
Inductive exception : Type := InvalidNodeError.

Inductive outcome : Type :=
  | Returns (r : SearchResult)
  | Raises (e : exception).

Definition call (st : strategy) (graph : CampusGraph) (start goal : string)
  : option outcome :=
  Returns <$> search st graph start goal.





(** The graph of the scenario of the specification: A, B, C, D joined by
    (A,B,10), (B,C,10), (A,C,5), (C,D,5), and E on its own. *)
Definition scenario : CampusGraph :=
  add_connections
    [("A", "B", 10); ("B", "C", 10); ("A", "C", 5); ("C", "D", 5)]
    (init_nodes
       [("A", (0, 0)); ("B", (10, 0)); ("C", (5, 0)); ("D", (10, 5));
        ("E", (50, 50))]
       {| nodes := ∅; edges := ∅;
          coordinates := list_to_map
            [("A", (0, 0)); ("B", (10, 0)); ("C", (5, 0)); ("D", (10, 5));
             ("E", (50, 50))] |}).

(** ** Paths in the graph *)

(** Every adjacency dict is a dict. *)
Definition graph_wf (g : CampusGraph) : Prop :=
  map_Forall (fun _ adj => dict_wf adj) (edges g).

(** No edge has a negative weight. *)
Definition nonneg_weights (g : CampusGraph) : Prop :=
  map_Forall (fun _ adj => Forall (fun yw => 0 <= yw.2) adj) (edges g).

(** Consecutive nodes of [p] are joined by an edge. *)
Fixpoint is_walk (g : CampusGraph) (p : list string) : bool :=
  match p with
  | a :: (b :: _) as rest =>
      bool_decide (is_Some (get_distance g a b)) && is_walk g rest
  | _ => true
  end.

(** [p] is a path of the graph from [start] to [goal]. *)
Definition connects (g : CampusGraph) (start goal : string) (p : list string)
  : Prop :=
  head p = Some start /\ last p = Some goal /\ is_walk g p = true.

Definition reachable (g : CampusGraph) (start goal : string) : Prop :=
  exists p, connects g start goal p.

(** Order on costs, infinity on top. *)
Definition distance_le (a b : distance) : Prop :=
  match a, b with
  | Finite x, Finite y => x <= y
  | _, Infinite => True
  | Infinite, Finite _ => False
  end.

(** The nodes [start] reaches, each with the weight of a path that leads to
    it; [wt] is what an edge of a given distance counts for (the distance
    itself for cost, 1 for the number of edges). *)
Inductive reach (g : CampusGraph) (wt : Z -> Z) (start : string)
  : string -> Z -> Prop :=
  | reach_start : reach g wt start start 0
  | reach_step x y w r :
      reach g wt start x r -> get_distance g x y = Some w ->
      reach g wt start y (r + wt w).

Fixpoint walk_weight (g : CampusGraph) (wt : Z -> Z) (p : list string) : Z :=
  match p with
  | a :: (b :: _) as rest =>
      match get_distance g a b with
      | Some w => wt w + walk_weight g wt rest
      | None => walk_weight g wt rest
      end
  | _ => 0
  end.

(** ** The shape shared by the four loops *)

(** What the proofs read of a frontier tuple, wherever the strategy keeps
    it in the tuple. *)
Class Entry (E : Type) : Type := {
  e_node : E -> string;
  e_path : E -> list string;
  e_cost : E -> Z
}.

#[global] Hint Mode Entry ! : typeclass_instances.

#[global] Instance queue_entry : Entry (string * list string * Z) :=
  {| e_node := fun e => e.1.1; e_path := fun e => e.1.2; e_cost := fun e => e.2 |}.

#[global] Instance ucs_entry : Entry (Z * string * list string) :=
  {| e_node := fun e => e.1.2; e_path := fun e => e.2; e_cost := fun e => e.1.1 |}.

#[global] Instance astar_entry : Entry (Float.float * Z * string * list string) :=
  {| e_node := fun e => e.1.2; e_path := fun e => e.2;
     e_cost := fun e => e.1.1.2 |}.

Definition step_view {S S' R : Type} (view : S -> S') (st : step S R)
  : step S' R :=
  match st with
  | Continue s => Continue (view s)
  | Return r => Return r
  end.

Section Turn.

Context {E : Type} `{Entry E}.
Variables (g : CampusGraph) (name goal : string).
Variables (rank : E -> Z) (wt : Z -> Z).

(** [c] is a tuple pushed while [e] is expanded with [V] visited. *)
Definition pushed_from (e : E) (V : gset string) (c : E) : Prop :=
  exists y w, (y, w) ∈ get_neighbors g (e_node e) /\ (y ∉ V) /\
    e_node c = y /\ e_path c = e_path e ++ [y] /\ e_cost c = e_cost e + w.

(** [e] is taken out of the frontier, which keeps [rest]; no tuple of
    [rest] ranks below [e]. *)
Definition popped (s : search_state E) (e : E) (rest : list E) : Prop :=
  frontier s ≡ₚ e :: rest /\ forall e', e' ∈ rest -> rank e <= rank e'.

(** One turn of a search loop, as all four strategies take it. *)
Inductive turn (s : search_state E)
  : step (search_state E) SearchResult -> Prop :=
  | turn_empty :
      frontier s = [] ->
      turn s (Return (no_path name (nodes_explored_so_far s)
                        (exploration_order_so_far s)))
  | turn_skip e rest :
      popped s e rest -> e_node e ∈ visited s ->
      turn s (Continue
                {| frontier := rest; visited := visited s;
                   exploration_order_so_far := exploration_order_so_far s;
                   nodes_explored_so_far := nodes_explored_so_far s |})
  | turn_goal e rest c :
      popped s e rest -> e_node e ∉ visited s -> e_node e = goal ->
      c = Finite (e_cost e) \/ c = get_path_distance g (e_path e) ->
      turn s (Return
                {| path := e_path e; cost := c;
                   nodes_explored := nodes_explored_so_far s ++ [e_node e];
                   exploration_order :=
                     exploration_order_so_far s ++ [e_node e];
                   algorithm := name; success := true |})
  | turn_expand e rest children fr' :
      popped s e rest -> e_node e ∉ visited s -> e_node e <> goal ->
      Forall (pushed_from e ({[e_node e]} ∪ visited s)) children ->
      (length children <= length (get_neighbors g (e_node e)))%nat ->
      fr' ≡ₚ rest ++ children ->
      (forall y w, (y, w) ∈ get_neighbors g (e_node e) ->
                   y ∉ {[e_node e]} ∪ visited s ->
                   exists c, c ∈ fr' /\ e_node c = y /\
                             rank c <= rank e + wt w) ->
      turn s (Continue
                {| frontier := fr'; visited := {[e_node e]} ∪ visited s;
                   exploration_order_so_far :=
                     exploration_order_so_far s ++ [e_node e];
                   nodes_explored_so_far :=
                     nodes_explored_so_far s ++ [e_node e] |}).

End Turn.

(** ** Vocabulary of the proofs *)

(** The adjacency entries of the nodes not yet visited: what the
    frontier can still grow by. *)
Definition pending (m : gmap string (list (string * Z))) (V : gset string)
  : nat :=
  map_fold (fun k adj n => if decide (k ∈ V) then n else length adj + n)%nat
           0%nat m.

(** What the result of a search between two valid nodes satisfies, whatever
    the strategy: a path of the graph that ends the exploration, or no path
    and an exploration of all that [start] reaches. *)
Definition result_ok (g : CampusGraph) (name start goal : string)
    (r : SearchResult) : Prop :=
  nodes_explored r = exploration_order r /\
  NoDup (exploration_order r) /\
  algorithm r = name /\
  ((success r = true /\
    connects g start goal (path r) /\
    last (exploration_order r) = Some goal /\
    (graph_wf g -> get_path_distance g (path r) = cost r))
   \/
   (r = no_path name (exploration_order r) (exploration_order r) /\
    ~ reachable g start goal /\
    forall x, x ∈ exploration_order r <-> reachable g start x)).

(** What every turn of a search keeps, what its result satisfies, and
    what every turn lowers. *)
Section SearchVocabulary.

Context {E : Type} `{Entry E}.
Variables (g : CampusGraph) (name start goal : string).
Variables (rank : E -> Z) (wt : Z -> Z).

Record search_inv (s : search_state E) : Prop := {
  inv_explored : nodes_explored_so_far s = exploration_order_so_far s;
  inv_nodup : NoDup (exploration_order_so_far s);
  inv_visited : forall x, x ∈ visited s <-> x ∈ exploration_order_so_far s;
  inv_goal : goal ∉ visited s;
  inv_paths : forall e, e ∈ frontier s -> connects g start (e_node e) (e_path e);
  inv_costs : graph_wf g -> forall e, e ∈ frontier s ->
              path_distance_loop g 0 (e_path e) = Finite (e_cost e);
  inv_reached : forall x, x ∈ visited s -> reachable g start x;
  inv_start : start ∈ visited s \/
              exists e, e ∈ frontier s /\ e_node e = start /\ rank e <= 0;
  inv_border : forall x r y w,
      x ∈ visited s -> reach g wt start x r ->
      get_distance g x y = Some w -> y ∉ visited s ->
      exists e, e ∈ frontier s /\ e_node e = y /\ rank e <= r + wt w
}.

(** The tuple a successful result was built from ranks no higher than
    any path from [start] to [goal] weighs. *)
Definition result_least (r : SearchResult) : Prop :=
  success r = true ->
  exists e, e_path e = path r /\
    (cost r = Finite (e_cost e) \/ cost r = get_path_distance g (path r)) /\
    (graph_wf g -> get_path_distance g (path r) = Finite (e_cost e)) /\
    forall q, reach g wt start goal q -> rank e <= q.

Definition search_post (r : SearchResult) : Prop :=
  result_ok g name start goal r /\ result_least r.

Definition search_measure (s : search_state E) : nat :=
  length (frontier s) + pending (edges g) (visited s).

End SearchVocabulary.

(** The tuples a [for] loop over [nbrs] pushes, [mk] making the tuple of a
    neighbour. *)
Definition pushes {E : Type} (mk : string -> Z -> E) (V : gset string)
    (nbrs : list (string * Z)) : list E :=
  (fun yw => mk yw.1 yw.2) <$> filter (fun yw => yw.1 ∉ V) nbrs.

(** The number of edges of the path of a tuple of the BFS queue. *)
Definition bfs_rank (e : string * list string * Z) : Z :=
  Z.of_nat (length (e_path e)) - 1.

(** The queue of BFS holds paths of [k] edges, then paths of [k + 1]. *)
Definition bfs_sorted (k : Z) (queue : list (string * list string * Z)) : Prop :=
  exists A B, queue = A ++ B /\
    Forall (fun e => bfs_rank e = k) A /\ Forall (fun e => bfs_rank e = k + 1) B.

Definition bfs_inv (s : search_state (string * list string * Z)) : Prop :=
  exists k, bfs_sorted k (frontier s).

(** Every node on record in [g_costs] is visited or still in the heap. *)
Definition astar_inv (sg : astar_state) : Prop :=
  forall y, is_Some (sg.2 !! y) ->
    y ∈ visited sg.1 \/ exists c, c ∈ frontier sg.1 /\ e_node c = y.

(** What the [for] loop of A* has pushed and recorded once it has gone
    through the neighbours [seen]. *)
Definition astar_pushed (V : gset string) (path : list string) (g_cost : Z)
    (pq : list (Float.float * Z * string * list string)) (gc : gmap string Z)
    (acc : list (Float.float * Z * string * list string) * gmap string Z)
    (seen : list (string * Z)) : Prop :=
  exists children,
    acc.1 = pq ++ children /\
    Forall (fun c => exists y w, (y, w) ∈ seen /\ (y ∉ V) /\ e_node c = y /\
                       e_path c = path ++ [y] /\ e_cost c = g_cost + w)
           children /\
    (length children <= length seen)%nat /\
    (forall y, is_Some (acc.2 !! y) ->
               is_Some (gc !! y) \/ exists c, c ∈ children /\ e_node c = y) /\
    (forall y, is_Some (gc !! y) -> is_Some (acc.2 !! y)) /\
    (forall y w, (y, w) ∈ seen -> y ∉ V -> is_Some (acc.2 !! y)).

(** A three-way comparison that is a total order. *)
Class TotalCompare {A : Type} (cmp : A -> A -> comparison) : Prop := {
  cmp_eq : forall a b, cmp a b = Eq -> a = b;
  cmp_refl : forall a, cmp a a = Eq;
  cmp_antisym : forall a b, cmp b a = CompOpp (cmp a b);
  cmp_trans : forall a b c, cmp a b = Lt -> cmp b c = Lt -> cmp a c = Lt
}.

(** Lexicographic order: the first comparison decides unless it ties. *)
Definition lex (c1 c2 : comparison) : comparison :=
  match c1 with Eq => c2 | _ => c1 end.

Definition pair_compare {A B : Type} (cmpA : A -> A -> comparison)
    (cmpB : B -> B -> comparison) (x y : A * B) : comparison :=
  lex (cmpA x.1 y.1) (cmpB x.2 y.2).

Fixpoint list_compare {A : Type} (cmp : A -> A -> comparison) (a b : list A)
  : comparison :=
  match a, b with
  | [], [] => Eq
  | [], _ :: _ => Lt
  | _ :: _, [] => Gt
  | x :: a', y :: b' => lex (cmp x y) (list_compare cmp a' b')
  end.


(** ** Vocabulary of the constructor and of the traces *)

(** The body of the loop of [_add_campus_connections], for one
    connection. *)
Definition add_connection (g : CampusGraph) (c : string * string * Z)
  : CampusGraph :=
  let '(node1, node2, d) := c in
  if is_valid_node g node1 && is_valid_node g node2 then
    {| nodes := nodes g;
       edges := alter (dict_set node1 d) node2
                  (alter (dict_set node2 d) node1 (edges g));
       coordinates := coordinates g |}
  else g.

(** The dict a display [{k1: v1, k2: v2, ...}] evaluates to: of a key
    written twice the later value stays. *)
Definition dict_display (kvs : list (string * (Z * Z))) : gmap string (Z * Z) :=
  foldl (fun m kv => <[kv.1 := kv.2]> m) ∅ kvs.

(** [CampusGraph()], had [_initialize_campus] the table [coords] and
    [_add_campus_connections] the list [connections]: the attributes
    start empty, [coordinates] takes the table, every name of it becomes
    a node with an empty adjacency dict, and the connections are added.
    Every node has its adjacency dict by the time the connections are
    added, so [self.edges[node1]] finds its key. *)
Definition make_graph (coords : list (string * (Z * Z)))
    (connections : list (string * string * Z)) : CampusGraph :=
  add_connections connections
    (init_nodes coords
       {| nodes := ∅; edges := ∅; coordinates := dict_display coords |}).

(** The connection [c] joins [a] and [b], in one direction or the other. *)
Definition joins (a b : string) (c : string * string * Z) : Prop :=
  (c.1.1 = a /\ c.1.2 = b) \/ (c.1.1 = b /\ c.1.2 = a).

#[global] Instance joins_dec a b c : Decision (joins a b c).
Proof. unfold joins. apply _. Defined.

(** What the constructor keeps while it adds connections: nodes and
    adjacency dicts go together, every adjacency dict is a dict, every edge
    is there in both directions with one distance, and joins two nodes. *)
Record graph_built (g : CampusGraph) : Prop := {
  built_adjacency : forall n, is_valid_node g n = true <-> is_Some (edges g !! n);
  built_wf : graph_wf g;
  built_symmetric : forall a b, get_distance g a b = get_distance g b a;
  built_closed : forall a b w, (b, w) ∈ get_neighbors g a ->
                   is_valid_node g a = true /\ is_valid_node g b = true
}.

(** The sum of two distances, [float('inf')] absorbing. *)
Definition distance_add (a b : distance) : distance :=
  match a, b with
  | Finite x, Finite y => Finite (x + y)
  | _, _ => Infinite
  end.

(** [d] is the least weight of a path from [start] to [x]. *)
Definition least_weight (g : CampusGraph) (wt : Z -> Z) (start x : string)
    (d : Z) : Prop :=
  reach g wt start x d /\ forall d', reach g wt start x d' -> d <= d'.

(** What a trace in the making satisfies: it begins with [start], which
    until then is all the frontier holds. *)
Definition trace_from {E : Type} `{Entry E} (start : string)
    (s : search_state E) : Prop :=
  (exploration_order_so_far s = [] /\
   forall e, e ∈ frontier s -> e_node e = start)
  \/ head (exploration_order_so_far s) = Some start.

(** The nodes explored so far were explored in the order of their least
    weights [ds], none of which exceeds the rank of a tuple of the
    frontier; the rank of a tuple is the weight of a path to its node. *)
Definition trace_ranked {E : Type} `{Entry E} (g : CampusGraph)
    (rank : E -> Z) (wt : Z -> Z) (start : string) (s : search_state E)
  : Prop :=
  exists ds : list Z,
    Forall2 (least_weight g wt start) (exploration_order_so_far s) ds /\
    StronglySorted Z.le ds /\
    (forall d e, d ∈ ds -> e ∈ frontier s -> d <= rank e) /\
    (forall e, e ∈ frontier s -> reach g wt start (e_node e) (rank e)).

(** The path of every tuple of the frontier goes through no node twice,
    and through visited nodes up to its last node. *)
Definition paths_simple {E : Type} `{Entry E} (s : search_state E) : Prop :=
  forall e, e ∈ frontier s ->
    NoDup (e_path e) /\
    forall x, x ∈ e_path e -> x = e_node e \/ x ∈ visited s.

(** What the trace and the path of a result have to do with each other
    and with [start]. *)
Definition trace_ok (g : CampusGraph) (start : string) (r : SearchResult)
  : Prop :=
  head (exploration_order r) = Some start /\
  (forall x, x ∈ exploration_order r -> reachable g start x) /\
  NoDup (path r) /\
  (forall x, x ∈ path r -> x ∈ exploration_order r).

(** Applies a constructor of [turn] once the projections of the tuple it
    is given are computed. *)
Ltac apply_turn c :=
  let Hturn := fresh "Hturn" in
  pose proof c as Hturn; simpl in Hturn; apply Hturn; clear Hturn.

(** A turn stays a turn when the ranks are forgotten. *)
Lemma turn_forget_rank {E : Type} `{Entry E} g name goal rank wt
    (s : search_state E) st :
  turn g name goal rank wt s st ->
  turn g name goal (fun _ => 0) (fun _ => 0) s st.
Proof.
  assert (forall e rest, popped rank s e rest -> popped (fun _ => 0) s e rest)
    as Hpopped by (intros e rest [Hp _]; by split).
  intros Hturn.
  inversion Hturn as [Hnil|e rest Hpop Hvis|e rest c Hpop Hvis Hgoal Hc
                     |e rest children fr' Hpop Hvis Hng Hch Hlen Hfr Hcov]; subst.
  - by apply turn_empty.
  - apply (turn_skip _ _ _ _ _ _ e rest); auto.
  - apply (turn_goal _ _ _ _ _ _ e rest c); auto.
  - apply (turn_expand _ _ _ _ _ _ e rest children fr'); auto.
    intros y w Hyw Hy. destruct (Hcov y w Hyw Hy) as (c & Hc & Hn & _).
    by exists c.
Qed.

(** ** Lemmas on dicts and paths *)

Lemma dict_get_elem_of {V : Type} (k : string) (v : V) (d : list (string * V)) :
  dict_get k d = Some v -> (k, v) ∈ d.
Proof.
  induction d as [|[k' v'] d IH]; simpl; [done|].
  destruct (String.eqb_spec k' k) as [->|Hne].
  - intros [= ->]. left.
  - intros Hd. right. auto.
Qed.

Lemma dict_get_is_Some {V : Type} (k : string) (v : V) (d : list (string * V)) :
  (k, v) ∈ d -> is_Some (dict_get k d).
Proof.
  induction d as [|[k' v'] d IH]; simpl.
  - intros Hin. inversion Hin.
  - intros Hin. destruct (String.eqb_spec k' k) as [->|Hne]; [eauto|].
    apply IH. inversion Hin; subst; [congruence | done].
Qed.

Lemma dict_get_wf {V : Type} (k : string) (v : V) (d : list (string * V)) :
  dict_wf d -> (k, v) ∈ d -> dict_get k d = Some v.
Proof.
  unfold dict_wf. induction d as [|[k' v'] d IH]; simpl.
  - intros _ Hin. inversion Hin.
  - intros Hnd Hin. apply NoDup_cons in Hnd as [Hk Hnd].
    destruct (String.eqb_spec k' k) as [->|Hne].
    + inversion Hin; subst; [done|].
      exfalso. apply Hk. apply list_elem_of_fmap. by exists (k, v).
    + apply IH; [done|]. inversion Hin; subst; [congruence | done].
Qed.

Section PathLemmas.

Variable g : CampusGraph.

Lemma get_distance_neighbors x y w :
  get_distance g x y = Some w -> (y, w) ∈ get_neighbors g x.
Proof. apply dict_get_elem_of. Qed.

Lemma neighbors_get_distance x y w :
  (y, w) ∈ get_neighbors g x -> is_Some (get_distance g x y).
Proof. apply dict_get_is_Some. Qed.

Lemma neighbors_get_distance_wf x y w :
  graph_wf g -> (y, w) ∈ get_neighbors g x -> get_distance g x y = Some w.
Proof.
  unfold graph_wf, get_neighbors, get_distance. intros Hwf.
  destruct (edges g !! x) as [adj|] eqn:Hx; simpl.
  - apply dict_get_wf. by apply (Hwf x adj).
  - intros Hin. inversion Hin.
Qed.

Lemma neighbors_nonneg x y w :
  nonneg_weights g -> (y, w) ∈ get_neighbors g x -> 0 <= w.
Proof.
  unfold nonneg_weights, get_neighbors. intros Hnn.
  destruct (edges g !! x) as [adj|] eqn:Hx; simpl.
  - intros Hin. specialize (Hnn x adj Hx). simpl in Hnn.
    rewrite Forall_forall in Hnn. apply (Hnn (y, w) Hin).
  - intros Hin. inversion Hin.
Qed.

Lemma get_path_distance_loop p :
  get_path_distance g p = path_distance_loop g 0 p.
Proof.
  unfold get_path_distance. destruct p as [|a [|b p]]; reflexivity.
Qed.

Lemma path_distance_loop_snoc p x y acc :
  last p = Some x ->
  path_distance_loop g acc (p ++ [y]) =
    match path_distance_loop g acc p, get_distance g x y with
    | Finite d, Some w => Finite (d + w)
    | _, _ => Infinite
    end.
Proof.
  revert acc. induction p as [|a p IH]; intros acc Hl; [done|].
  destruct p as [|b p].
  - simpl in Hl. injection Hl as ->. simpl.
    destruct (get_distance g x y); reflexivity.
  - rewrite last_cons_cons in Hl. simpl.
    destruct (get_distance g a b); [|reflexivity].
    apply (IH _ Hl).
Qed.

Lemma is_walk_snoc p x y :
  last p = Some x ->
  is_walk g (p ++ [y]) = is_walk g p && bool_decide (is_Some (get_distance g x y)).
Proof.
  induction p as [|a p IH]; intros Hl; [done|].
  destruct p as [|b p].
  - simpl in Hl. injection Hl as ->. simpl. by rewrite andb_true_r.
  - rewrite last_cons_cons in Hl. simpl in *.
    rewrite (IH Hl). by rewrite andb_assoc.
Qed.

Lemma walk_weight_snoc wt p x y w :
  last p = Some x -> get_distance g x y = Some w ->
  walk_weight g wt (p ++ [y]) = walk_weight g wt p + wt w.
Proof.
  induction p as [|a p IH]; intros Hl Hd; [done|].
  destruct p as [|b p].
  - simpl in Hl. injection Hl as ->. simpl. rewrite Hd. lia.
  - rewrite last_cons_cons in Hl. simpl in *.
    specialize (IH Hl Hd). destruct (get_distance g a b); lia.
Qed.

Lemma connects_snoc start x y p :
  connects g start x p -> is_Some (get_distance g x y) ->
  connects g start y (p ++ [y]).
Proof.
  intros (Hh & Hl & Hw) Hd. split; [|split].
  - destruct p; [done|]. done.
  - apply last_snoc.
  - rewrite (is_walk_snoc _ _ _ Hl), Hw. simpl. by apply bool_decide_eq_true.
Qed.

Lemma connects_start start : connects g start start [start].
Proof. done. Qed.

(** A path from [start] is a derivation of [reach], with its weight. *)
Lemma connects_reach wt start goal p :
  connects g start goal p -> reach g wt start goal (walk_weight g wt p).
Proof.
  revert goal. induction p as [|y p IH] using rev_ind; intros goal (Hh & Hl & Hw).
  - done.
  - rewrite last_snoc in Hl. injection Hl as ->.
    destruct p as [|a p].
    + simpl in Hh. injection Hh as ->. constructor.
    + destruct (last (a :: p)) as [x|] eqn:Hx; [|by apply last_None in Hx].
      rewrite (is_walk_snoc _ _ _ Hx) in Hw.
      apply andb_true_iff in Hw as [Hw Hd].
      apply bool_decide_eq_true in Hd as [w Hd].
      rewrite (walk_weight_snoc _ _ _ _ _ Hx Hd).
      eapply reach_step; [|exact Hd].
      apply IH. done.
Qed.

Lemma reach_reachable wt start goal r :
  reach g wt start goal r -> reachable g start goal.
Proof.
  induction 1 as [|x y w r _ [p Hp] Hd].
  - exists [start]. apply connects_start.
  - exists (p ++ [y]). eapply connects_snoc; eauto.
Qed.

(** On a path the distance is finite and is the sum of its edges. *)
Lemma walk_distance p :
  is_walk g p = true ->
  get_path_distance g p = Finite (walk_weight g (fun w => w) p).
Proof.
  rewrite get_path_distance_loop.
  assert (forall acc, is_walk g p = true ->
            path_distance_loop g acc p
            = Finite (acc + walk_weight g (fun w => w) p)) as Hgen.
  { induction p as [|a p IH]; intros acc Hw; [simpl; f_equal; lia|].
    destruct p as [|b p]; [simpl; f_equal; lia|].
    simpl in Hw. apply andb_true_iff in Hw as [Hd Hw].
    apply bool_decide_eq_true in Hd as [w Hd].
    change (path_distance_loop g acc (a :: b :: p))
      with (match get_distance g a b with
            | None => Infinite
            | Some d => path_distance_loop g (acc + d) (b :: p)
            end).
    change (walk_weight g (fun w => w) (a :: b :: p))
      with (match get_distance g a b with
            | Some w => w + walk_weight g (fun w => w) (b :: p)
            | None => walk_weight g (fun w => w) (b :: p)
            end).
    rewrite Hd, (IH _ Hw). f_equal. lia. }
  intros Hw. rewrite (Hgen 0 Hw). f_equal.
Qed.

End PathLemmas.

(** ** Loops: invariants and termination *)

Section WhileLoop.

Context {S R : Type}.
Variables (body : S -> step S R) (I : S -> Prop).
Hypothesis I_step : forall s s', I s -> body s = Continue s' -> I s'.

(** A result of the loop is returned by a turn taken in a state that
    satisfies the invariant. *)
Lemma while_loop_returns fuel s r :
  I s -> while_loop body fuel s = Some r ->
  exists s', I s' /\ body s' = Return r.
Proof.
  revert s. induction fuel as [|fuel IH]; intros s Hs; simpl; [done|].
  destruct (body s) as [s'|r'] eqn:Hb.
  - intros Hr. apply (IH s'); eauto.
  - intros [= ->]. eauto.
Qed.

(** The loop returns when the fuel exceeds a measure that every turn
    lowers. *)
Lemma while_loop_terminates (mu : S -> nat) :
  (forall s s', I s -> body s = Continue s' -> (mu s' < mu s)%nat) ->
  forall fuel s, I s -> (mu s < fuel)%nat ->
  exists r, while_loop body fuel s = Some r.
Proof.
  intros Hmu. induction fuel as [|fuel IH]; intros s Hs Hlt; [lia|].
  simpl. destruct (body s) as [s'|r'] eqn:Hb; [|eauto].
  apply IH; [eauto|]. specialize (Hmu s s' Hs Hb). lia.
Qed.

End WhileLoop.

(** *** The fuel *)

Lemma pending_insert m V i x :
  m !! i = None ->
  pending (<[i := x]> m) V
  = (if decide (i ∈ V) then pending m V else length x + pending m V)%nat.
Proof.
  intros Hi. unfold pending. rewrite map_fold_insert_L; [done| |done].
  intros j1 j2 z1 z2 y _ _ _.
  destruct (decide (j1 ∈ V)), (decide (j2 ∈ V)); lia.
Qed.

Lemma pending_visit m V v :
  v ∉ V ->
  (pending m ({[v]} ∪ V) + length (default [] (m !! v)) <= pending m V)%nat.
Proof.
  intros Hv. induction m as [|i x m Hi IH] using map_ind.
  - rewrite lookup_empty. unfold pending. rewrite !map_fold_empty. simpl. lia.
  - rewrite !pending_insert by done.
    destruct (decide (i = v)) as [->|Hne].
    + rewrite lookup_insert_eq. simpl.
      destruct (decide (v ∈ {[v]} ∪ V)) as [_|Hn]; [|set_solver].
      destruct (decide (v ∈ V)); [done|]. lia.
    + rewrite lookup_insert_ne by done.
      destruct (decide (i ∈ V)) as [Hi1|Hi1], (decide (i ∈ {[v]} ∪ V)) as [Hi2|Hi2];
        [lia|set_solver|set_solver|lia].
Qed.

Lemma search_fuel_pending g : search_fuel g = (2 + pending (edges g) ∅)%nat.
Proof. reflexivity. Qed.

(** ** What every turn keeps *)

Section SearchInvariant.

Context {E : Type} `{Entry E}.
Variables (g : CampusGraph) (name start goal : string).
Variables (rank : E -> Z) (wt : Z -> Z).
Hypothesis wt_nonneg : forall x y w, get_distance g x y = Some w -> 0 <= wt w.

Lemma reach_nonneg x r : reach g wt start x r -> 0 <= r.
Proof.
  induction 1 as [|x y w r _ IH Hd]; [lia|].
  specialize (wt_nonneg _ _ _ Hd). lia.
Qed.

(** A path that leaves a set of nodes has an edge that crosses its
    border, and is at least as heavy as its part up to that edge. *)
Lemma reach_crossing (V : gset string) u r :
  reach g wt start u r -> u ∉ V -> start ∈ V ->
  exists x r' y w, x ∈ V /\ reach g wt start x r' /\
    get_distance g x y = Some w /\ (y ∉ V) /\ r' + wt w <= r.
Proof.
  induction 1 as [|x y w r Hr IH Hd]; intros Hu Hs; [done|].
  destruct (decide (x ∈ V)) as [Hx|Hx].
  - exists x, r, y, w. repeat split; try done; lia.
  - destruct (IH Hx Hs) as (x' & r' & y' & w' & ? & ? & ? & ? & ?).
    exists x', r', y', w'. repeat split; try done.
    pose proof (wt_nonneg _ _ _ Hd). lia.
Qed.

Lemma popped_elem_of s e rest :
  popped rank s e rest ->
  forall e', e' ∈ frontier s <-> e' = e \/ e' ∈ rest.
Proof. intros [Hp _] e'. rewrite Hp. apply elem_of_cons. Qed.

(** The tuple popped for a node not yet visited ranks no higher than any
    path to that node weighs. *)
Lemma popped_least s e rest :
  search_inv g start goal rank wt s -> popped rank s e rest -> e_node e ∉ visited s ->
  forall r, reach g wt start (e_node e) r -> rank e <= r.
Proof.
  intros Hinv Hpop Hn r Hr.
  assert (forall e1, e1 ∈ frontier s -> rank e <= rank e1) as Hmin.
  { intros e1 He1. apply (popped_elem_of _ _ _ Hpop) in He1 as [->|He1]; [lia|].
    destruct Hpop as [_ Hle]. by apply Hle. }
  destruct (decide (start ∈ visited s)) as [Hs|Hs].
  - destruct (reach_crossing _ _ _ Hr Hn Hs) as (x & r' & y & w & Hx & Hxr & Hd & Hy & Hle).
    destruct (inv_border g start goal rank wt s Hinv x r' y w Hx Hxr Hd Hy) as (e1 & He1 & _ & Hrk).
    specialize (Hmin e1 He1). lia.
  - destruct (inv_start g start goal rank wt s Hinv) as [?|(e0 & He0 & _ & Hrk)]; [done|].
    specialize (Hmin e0 He0). pose proof (reach_nonneg _ _ Hr). lia.
Qed.

Lemma search_inv_initial e0 :
  e_node e0 = start -> e_path e0 = [start] -> e_cost e0 = 0 -> rank e0 <= 0 ->
  search_inv g start goal rank wt (initial_state e0).
Proof.
  intros Hn Hp Hc Hr. split; simpl.
  - done.
  - constructor.
  - intros x. split; [set_solver|]. intros Hx. inversion Hx.
  - set_solver.
  - intros e He. apply list_elem_of_singleton in He as ->.
    rewrite Hn, Hp. apply connects_start.
  - intros _ e He. apply list_elem_of_singleton in He as ->.
    rewrite Hp, Hc. done.
  - set_solver.
  - right. exists e0. split; [apply list_elem_of_singleton; done|done].
  - set_solver.
Qed.

Lemma search_inv_turn s s' :
  search_inv g start goal rank wt s -> turn g name goal rank wt s (Continue s') -> search_inv g start goal rank wt s'.
Proof.
  intros Hinv Hturn. inversion Hturn as [ |e rest Hpop Hvis| |e rest children fr' Hpop Hvis Hng Hch Hlen Hfr Hcov]; subst.
  - (* a tuple of a visited node is dropped *)
    pose proof (popped_elem_of _ _ _ Hpop) as Hel.
    split; simpl; try apply Hinv.
    + intros e' He'. apply Hinv, Hel. by right.
    + intros Hwf e' He'. apply (inv_costs g start goal rank wt s Hinv Hwf), Hel. by right.
    + destruct (inv_start g start goal rank wt s Hinv) as [?|(e0 & He0 & Hn0 & Hr0)]; [by left|].
      destruct (decide (start ∈ visited s)) as [?|Hs]; [by left|]. right.
      exists e0. split; [|done].
      apply Hel in He0 as [->|?]; [|done]. congruence.
    + intros x r y w Hx Hr Hd Hy.
      destruct (inv_border g start goal rank wt s Hinv x r y w Hx Hr Hd Hy) as (e1 & He1 & Hn1 & Hr1).
      exists e1. split; [|done].
      apply Hel in He1 as [->|?]; [|done]. congruence.
  - (* a node is visited and its neighbours pushed *)
    pose proof (popped_elem_of _ _ _ Hpop) as Hel.
    assert (e ∈ frontier s) as He by (apply Hel; by left).
    pose proof (inv_paths g start goal rank wt s Hinv e He) as Hpath.
    assert (forall c, c ∈ fr' <-> c ∈ rest \/ c ∈ children) as Hel'.
    { intros c. rewrite Hfr. apply elem_of_app. }
    rewrite Forall_forall in Hch.
    split; simpl.
    + f_equal. apply Hinv.
    + apply NoDup_app. split; [apply Hinv|]. split; [|apply NoDup_singleton].
      intros x Hx Hx'. apply list_elem_of_singleton in Hx' as ->.
      by apply (inv_visited g start goal rank wt s Hinv) in Hx.
    + intros x. rewrite elem_of_union, elem_of_singleton, elem_of_app,
        list_elem_of_singleton, (inv_visited g start goal rank wt s Hinv). tauto.
    + pose proof (inv_goal g start goal rank wt s Hinv). set_solver.
    + intros c Hc. apply Hel' in Hc as [Hc|Hc].
      * apply Hinv, Hel. by right.
      * destruct (Hch c Hc) as (y & w & Hyw & _ & -> & -> & _).
        eapply connects_snoc; [exact Hpath|].
        by eapply neighbors_get_distance.
    + intros Hwf c Hc. apply Hel' in Hc as [Hc|Hc].
      * apply (inv_costs g start goal rank wt s Hinv Hwf), Hel. by right.
      * destruct (Hch c Hc) as (y & w & Hyw & _ & _ & -> & ->).
        destruct Hpath as (_ & Hlast & _).
        rewrite (path_distance_loop_snoc g _ _ y 0 Hlast).
        rewrite (inv_costs g start goal rank wt s Hinv Hwf e He).
        by rewrite (neighbors_get_distance_wf g _ _ _ Hwf Hyw).
    + intros x Hx. apply elem_of_union in Hx as [Hx|Hx].
      * apply elem_of_singleton in Hx as ->. by exists (e_path e).
      * by apply Hinv.
    + destruct (inv_start g start goal rank wt s Hinv) as [?|(e0 & He0 & Hn0 & Hr0)]; [left; set_solver|].
      apply Hel in He0 as [->|He0]; [left; set_solver|].
      right. exists e0. split; [|done]. apply Hel'. by left.
    + intros x r y w Hx Hr Hd Hy.
      apply elem_of_union in Hx as [Hx|Hx].
      * apply elem_of_singleton in Hx as ->.
        destruct (Hcov y w (get_distance_neighbors g _ _ _ Hd) Hy)
          as (c & Hc & Hcn & Hcr).
        exists c. split; [done|]. split; [done|].
        pose proof (popped_least s e rest Hinv Hpop Hvis r Hr). lia.
      * assert (y ∉ visited s) as Hy' by set_solver.
        destruct (inv_border g start goal rank wt s Hinv x r y w Hx Hr Hd Hy') as (e1 & He1 & Hn1 & Hr1).
        exists e1. split; [|done]. apply Hel'. left.
        apply Hel in He1 as [->|?]; [|done]. set_solver.
Qed.

Lemma search_measure_turn s s' :
  turn g name goal rank wt s (Continue s') ->
  (search_measure g s' < search_measure g s)%nat.
Proof.
  intros Hturn. inversion Hturn as [ |e rest [Hp _] Hvis| |e rest children fr' [Hp _] Hvis Hng Hch Hlen Hfr Hcov]; subst;
    unfold search_measure; simpl; rewrite Hp; simpl.
  - lia.
  - rewrite Hfr, length_app.
    pose proof (pending_visit (edges g) (visited s) (e_node e) Hvis) as Hpend.
    unfold get_neighbors in Hlen. lia.
Qed.

Lemma search_post_turn s r :
  search_inv g start goal rank wt s -> turn g name goal rank wt s (Return r) -> search_post g name start goal rank wt r.
Proof.
  intros Hinv Hturn. inversion Hturn as [Hnil| |e rest c Hpop Hvis Hgoal Hc|]; subst r;
    unfold search_post, result_ok, result_least; simpl.
  - (* the frontier is empty *)
    rewrite (inv_explored g start goal rank wt s Hinv).
    split; [|done].
    split; [done|]. split; [apply Hinv|]. split; [done|]. right.
    assert (start ∈ visited s) as Hs.
    { destruct (inv_start g start goal rank wt s Hinv) as [?|(e0 & He0 & _)]; [done|].
      rewrite Hnil in He0. inversion He0. }
    assert (forall x q, reach g wt start x q -> x ∈ visited s) as Hall.
    { induction 1 as [|x y w q Hq IH Hd]; [done|].
      destruct (decide (y ∈ visited s)) as [?|Hy]; [done|].
      destruct (inv_border g start goal rank wt s Hinv x q y w IH Hq Hd Hy) as (e1 & He1 & _).
      rewrite Hnil in He1. inversion He1. }
    assert (forall x, x ∈ exploration_order_so_far s <-> reachable g start x) as Hiff.
    { intros x. rewrite <- (inv_visited g start goal rank wt s Hinv). split; [apply Hinv|].
      intros [p Hp]. eapply Hall, connects_reach, Hp. }
    split; [done|]. split; [|done].
    intros Hreach. apply Hiff, (inv_visited g start goal rank wt s Hinv) in Hreach.
    by apply (inv_goal g start goal rank wt s Hinv).
  - (* the goal is popped *)
    pose proof (popped_elem_of _ _ _ Hpop) as Hel.
    assert (e ∈ frontier s) as He by (apply Hel; by left).
    rewrite (inv_explored g start goal rank wt s Hinv).
    split.
    + split; [done|]. split.
      { apply NoDup_app. split; [apply Hinv|]. split; [|apply NoDup_singleton].
        intros x Hx Hx'. apply list_elem_of_singleton in Hx' as ->.
        by apply (inv_visited g start goal rank wt s Hinv) in Hx. }
      split; [done|]. left.
      split; [done|]. split; [rewrite <- Hgoal; apply (inv_paths g start goal rank wt s Hinv e He)|].
      split; [rewrite <- Hgoal; apply last_snoc|].
      intros Hwf. destruct Hc as [->| ->]; [|done].
      rewrite get_path_distance_loop. apply (inv_costs g start goal rank wt s Hinv Hwf e He).
    + intros _. exists e. split; [done|]. split; [done|]. split.
      * intros Hwf. rewrite get_path_distance_loop.
        apply (inv_costs g start goal rank wt s Hinv Hwf e He).
      * rewrite <- Hgoal. apply (popped_least s e rest Hinv Hpop Hvis).
Qed.

End SearchInvariant.

(** ** A loop whose turns are search turns *)

Section SearchLoop.

Context {E : Type} `{Entry E} {S : Type}.
Variables (g : CampusGraph) (name start goal : string).
Variables (rank : E -> Z) (wt : Z -> Z).
Hypothesis wt_nonneg : forall x y w, get_distance g x y = Some w -> 0 <= wt w.

Variables (body : S -> step S SearchResult) (view : S -> search_state E).
Variable Inv : S -> Prop.
Hypothesis body_turn :
  forall s, Inv s -> turn g name goal rank wt (view s) (step_view view (body s)).
Hypothesis body_inv : forall s s', Inv s -> body s = Continue s' -> Inv s'.

Lemma search_loop_spec init e0 :
  Inv init -> view init = initial_state e0 ->
  e_node e0 = start -> e_path e0 = [start] -> e_cost e0 = 0 -> rank e0 <= 0 ->
  exists r, while_loop body (search_fuel g) init = Some r /\
            search_post g name start goal rank wt r.
Proof.
  intros Hinit Hview Hn Hp Hc Hr.
  set (J := fun s => Inv s /\ search_inv g start goal rank wt (view s)).
  assert (forall s s', J s -> body s = Continue s' -> J s') as HJ.
  { intros s s' [Hi Hs] Hb. split; [eauto|].
    pose proof (body_turn s Hi) as Ht. rewrite Hb in Ht.
    eapply search_inv_turn; eauto. }
  assert (J init) as HJ0.
  { split; [done|]. rewrite Hview. by apply search_inv_initial. }
  destruct (while_loop_terminates body J HJ
              (fun s => search_measure g (view s))) with (fuel := search_fuel g) (s := init)
    as [r Hr'].
  - intros s s' [Hi Hs] Hb.
    pose proof (body_turn s Hi) as Ht. rewrite Hb in Ht.
    eapply search_measure_turn; eauto.
  - done.
  - rewrite Hview, search_fuel_pending. unfold search_measure. simpl. lia.
  - exists r. split; [done|].
    destruct (while_loop_returns body J HJ _ _ _ HJ0 Hr') as (s' & [Hi Hs] & Hb).
    pose proof (body_turn s' Hi) as Ht. rewrite Hb in Ht.
    eapply search_post_turn; eauto.
Qed.

End SearchLoop.

(** ** The four loops take search turns *)

Section Pushes.

Context {E : Type} `{Entry E}.
Variables (g : CampusGraph) (V : gset string) (e : E) (mk : string -> Z -> E).
Hypothesis mk_node : forall y w, e_node (mk y w) = y.
Hypothesis mk_path : forall y w, e_path (mk y w) = e_path e ++ [y].
Hypothesis mk_cost : forall y w, e_cost (mk y w) = e_cost e + w.

Lemma pushes_pushed_from :
  Forall (pushed_from g e V) (pushes mk V (get_neighbors g (e_node e))).
Proof.
  apply Forall_forall. intros c Hc. unfold pushes in Hc.
  apply list_elem_of_fmap in Hc as ([y w] & -> & Hyw).
  apply list_elem_of_filter in Hyw as [Hy Hyw]. simpl in *.
  exists y, w. by rewrite mk_node, mk_path, mk_cost.
Qed.

Lemma pushes_length nbrs : (length (pushes mk V nbrs) <= length nbrs)%nat.
Proof. unfold pushes. rewrite length_fmap. apply length_filter. Qed.

Lemma pushes_elem_of nbrs y w :
  (y, w) ∈ nbrs -> y ∉ V -> mk y w ∈ pushes mk V nbrs.
Proof.
  intros Hyw Hy. unfold pushes. apply list_elem_of_fmap.
  exists (y, w). split; [done|]. by apply list_elem_of_filter.
Qed.

End Pushes.

Lemma pushes_cons {E : Type} (mk : string -> Z -> E) V y w nbrs :
  pushes mk V ((y, w) :: nbrs)
  = if decide (y ∈ V) then pushes mk V nbrs else mk y w :: pushes mk V nbrs.
Proof.
  unfold pushes. rewrite filter_cons. simpl.
  destruct (decide (y ∉ V)), (decide (y ∈ V)); done.
Qed.

Lemma bfs_push_all V path cost nbrs queue :
  foldl (bfs_push V path cost) queue nbrs
  = queue ++ pushes (fun y w => (y, path ++ [y], cost + w)) V nbrs.
Proof.
  revert queue. induction nbrs as [|[y w] nbrs IH]; intros queue.
  - by rewrite app_nil_r.
  - rewrite pushes_cons. simpl. rewrite IH.
    destruct (decide (y ∈ V)); [done|]. by rewrite <- app_assoc.
Qed.

Lemma dfs_push_all V path cost nbrs stack :
  foldl (dfs_push V path cost) stack (reverse nbrs)
  = pushes (fun y w => (y, path ++ [y], cost + w)) V nbrs ++ stack.
Proof.
  revert stack. induction nbrs as [|[y w] nbrs IH]; intros stack; [done|].
  rewrite reverse_cons, foldl_app, IH, pushes_cons. simpl.
  destruct (decide (y ∈ V)); done.
Qed.

Lemma ucs_push_all V path cost nbrs queue :
  foldl (ucs_push V path cost) queue nbrs
  = queue ++ pushes (fun y w => (cost + w, y, path ++ [y])) V nbrs.
Proof.
  revert queue. induction nbrs as [|[y w] nbrs IH]; intros queue.
  - by rewrite app_nil_r.
  - rewrite pushes_cons. simpl. rewrite IH. unfold heappush.
    destruct (decide (y ∈ V)); [done|]. by rewrite <- app_assoc.
Qed.

Lemma foldl_ind {A B : Type} (f : A -> B -> A) (P : A -> list B -> Prop) a :
  P a [] ->
  (forall acc x seen, P acc seen -> P (f acc x) (seen ++ [x])) ->
  forall l, P (foldl f a l) l.
Proof.
  intros H0 Hstep l. induction l as [|x l IH] using rev_ind; [done|].
  rewrite foldl_app. simpl. by apply Hstep.
Qed.

(** *** heappop *)

Section HeapqLemmas.

Context {E : Type} (lt : E -> E -> bool) (rank : E -> Z).
Hypothesis lt_rank : forall a b, lt a b = true -> rank a <= rank b.
Hypothesis not_lt_rank : forall a b, lt a b = false -> rank b <= rank a.

Lemma take_least_spec x heap m rest :
  take_least lt x heap = (m, rest) ->
  x :: heap ≡ₚ m :: rest /\ forall e, e ∈ rest -> rank m <= rank e.
Proof.
  revert x m rest. induction heap as [|y heap IH]; intros x m rest; simpl.
  - intros [= <- <-]. split; [done|]. intros e He. inversion He.
  - destruct (take_least lt y heap) as [m' rest'] eqn:Hy.
    destruct (IH y m' rest' Hy) as [Hperm Hmin].
    destruct (lt m' x) eqn:Hlt; intros [= <- <-].
    + split.
      * rewrite Hperm. apply perm_swap.
      * intros e He. apply elem_of_cons in He as [->|He]; [by apply lt_rank|].
        by apply Hmin.
    + split; [done|]. intros e He. apply not_lt_rank in Hlt.
      rewrite Hperm in He. apply elem_of_cons in He as [->|He]; [done|].
      specialize (Hmin e He). lia.
Qed.

Lemma heappop_spec heap m rest :
  heappop lt heap = Some (m, rest) ->
  heap ≡ₚ m :: rest /\ forall e, e ∈ rest -> rank m <= rank e.
Proof.
  destruct heap as [|x heap]; simpl; [done|].
  intros [= Ht]. by apply take_least_spec.
Qed.

Lemma heappop_None heap : heappop lt heap = None -> heap = [].
Proof. by destruct heap. Qed.

End HeapqLemmas.

(** ** Python's order on the tuples of the heaps *)

#[global] Instance Z_total_compare : TotalCompare Z.compare.
Proof.
  split.
  - intros a b. apply Z.compare_eq.
  - apply Z.compare_refl.
  - intros a b. apply Z.compare_antisym.
  - intros a b c. rewrite !Z.compare_lt_iff. lia.
Qed.

#[global] Instance string_total_compare : TotalCompare String.compare.
Proof.
  split.
  - apply String.compare_eq_iff.
  - intros a. by apply String_as_OT.cmp_eq.
  - intros a b. apply String.compare_antisym.
  - intros a b c Hab Hbc. apply String_as_OT.cmp_lt.
    eapply String_as_OT.lt_trans; by apply String_as_OT.cmp_lt.
Qed.

Section Lexicographic.

Context {A B : Type} (cmpA : A -> A -> comparison) (cmpB : B -> B -> comparison).
Context `{!TotalCompare cmpA, !TotalCompare cmpB}.

#[global] Instance pair_total_compare : TotalCompare (pair_compare cmpA cmpB).
Proof.
  split.
  - intros [a b] [a' b']. unfold pair_compare, lex. simpl.
    destruct (cmpA a a') eqn:Ha; try done.
    intros Hb. by rewrite (cmp_eq _ _ Ha), (cmp_eq _ _ Hb).
  - intros [a b]. unfold pair_compare. simpl.
    by rewrite (cmp_refl (cmp := cmpA)), (cmp_refl (cmp := cmpB)).
  - intros [a b] [a' b']. unfold pair_compare. simpl.
    rewrite (cmp_antisym (cmp := cmpA) a a'), (cmp_antisym (cmp := cmpB) b b').
    by destruct (cmpA a a').
  - intros [a1 b1] [a2 b2] [a3 b3]. unfold pair_compare, lex. simpl.
    destruct (cmpA a1 a2) eqn:H12; try done;
      destruct (cmpA a2 a3) eqn:H23; try done; intros Hb12 Hb23.
    + apply cmp_eq in H12, H23. subst. rewrite (cmp_refl (cmp := cmpA)).
      by eapply (cmp_trans (cmp := cmpB)).
    + apply cmp_eq in H12. subst. by rewrite H23.
    + apply cmp_eq in H23. subst. by rewrite H12.
    + by rewrite (cmp_trans (cmp := cmpA) _ _ _ H12 H23).
Qed.

#[global] Instance list_total_compare : TotalCompare (list_compare cmpA).
Proof.
  split.
  - intros a. induction a as [|x a IH]; intros [|y b]; simpl; try done.
    unfold lex. destruct (cmpA x y) eqn:Hxy; try done.
    intros Hab. by rewrite (cmp_eq _ _ Hxy), (IH _ Hab).
  - intros a. induction a as [|x a IH]; simpl; [done|].
    by rewrite (cmp_refl (cmp := cmpA)).
  - intros a. induction a as [|x a IH]; intros [|y b]; simpl; try done.
    rewrite (cmp_antisym (cmp := cmpA) x y), (IH b). by destruct (cmpA x y).
  - intros a. induction a as [|x a IH]; intros [|y b] [|z c]; simpl; try done.
    unfold lex.
    destruct (cmpA x y) eqn:H12; try done;
      destruct (cmpA y z) eqn:H23; try done; intros Hb12 Hb23.
    + apply cmp_eq in H12, H23. subst. rewrite (cmp_refl (cmp := cmpA)).
      by eapply IH.
    + apply cmp_eq in H12. subst. by rewrite H23.
    + apply cmp_eq in H23. subst. by rewrite H12.
    + by rewrite (cmp_trans (cmp := cmpA) _ _ _ H12 H23).
Qed.

End Lexicographic.

Section TotalCompareFacts.

Context {A : Type} (cmp : A -> A -> comparison) `{!TotalCompare cmp}.



(** If [lt] is the boolean of [cmp], [heappop] hands out an item that
    none of the others is below. *)
Variable lt : A -> A -> bool.
Hypothesis lt_cmp : forall a b, lt a b = true <-> cmp a b = Lt.


End TotalCompareFacts.





(** ** The four loops, turn by turn *)

Lemma bfs_sorted_cons k e rest :
  bfs_sorted k (e :: rest) -> bfs_sorted (bfs_rank e) rest.
Proof.
  intros (A & B & Heq & HA & HB). destruct A as [|a A].
  - simpl in Heq. subst B. apply Forall_cons in HB as [He HB].
    exists rest, []. rewrite app_nil_r. split; [done|]. split; [|done].
    eapply Forall_impl; [exact HB|]. simpl. intros; lia.
  - injection Heq as <- ->. apply Forall_cons in HA as [He HA].
    exists A, B. rewrite He. done.
Qed.

Lemma bfs_sorted_least k rest e' :
  bfs_sorted k rest -> e' ∈ rest -> k <= bfs_rank e'.
Proof.
  intros (A & B & -> & HA & HB) He'. rewrite Forall_forall in HA, HB.
  apply elem_of_app in He' as [He'|He'].
  - rewrite (HA _ He'). lia.
  - rewrite (HB _ He'). lia.
Qed.

Lemma bfs_sorted_push k rest children :
  bfs_sorted k rest -> Forall (fun e => bfs_rank e = k + 1) children ->
  bfs_sorted k (rest ++ children).
Proof.
  intros (A & B & -> & HA & HB) Hch. exists A, (B ++ children).
  rewrite app_assoc. split; [done|]. split; [done|]. by apply Forall_app.
Qed.

Lemma ucs_lt_cost a b : ucs_lt a b = true -> e_cost a <= e_cost b.
Proof.
  destruct a as [[c1 n1] p1], b as [[c2 n2] p2]. simpl.
  destruct (Z.eqb_spec c1 c2); simpl; [lia|]. intros ?%Z.ltb_lt. lia.
Qed.

Lemma ucs_not_lt_cost a b : ucs_lt a b = false -> e_cost b <= e_cost a.
Proof.
  destruct a as [[c1 n1] p1], b as [[c2 n2] p2]. simpl.
  destruct (Z.eqb_spec c1 c2); simpl; [lia|]. intros ?%Z.ltb_ge. lia.
Qed.

Section Turns.

Variables (g : CampusGraph) (goal : string).

Lemma dfs_body_turn s :
  turn g "DFS" goal (fun _ => 0) (fun _ => 0) s (dfs_body g goal s).
Proof.
  unfold dfs_body. destruct (frontier s) as [|[[n p] c] stack] eqn:Hf.
  - by apply turn_empty.
  - assert (popped (fun _ => 0) s (n, p, c) stack) as Hpop.
    { split; [by rewrite Hf|done]. }
    destruct (decide (n ∈ visited s)) as [Hn|Hn].
    + by apply_turn (turn_skip g "DFS" goal (fun _ => 0) (fun _ => 0) s (n, p, c) stack).
    + destruct (decide (n = goal)) as [Hg|Hg].
      * apply_turn (turn_goal g "DFS" goal (fun _ => 0) (fun _ => 0) s
                      (n, p, c) stack (get_path_distance g p)); try done.
        by right.
      * rewrite dfs_push_all.
        apply_turn (turn_expand g "DFS" goal (fun _ => 0) (fun _ => 0) s
                      (n, p, c) stack
                      (pushes (fun y w => (y, p ++ [y], c + w))
                         ({[n]} ∪ visited s) (get_neighbors g n))); try done.
        -- by apply_turn (pushes_pushed_from g ({[n]} ∪ visited s) (n, p, c)
                            (fun y w => (y, p ++ [y], c + w))).
        -- apply pushes_length.
        -- apply Permutation_app_comm.
        -- intros y w Hyw Hy. exists (y, p ++ [y], c + w).
           split; [|done]. apply elem_of_app. left.
           by apply (pushes_elem_of _ (fun y w => (y, p ++ [y], c + w))).
Qed.

Lemma bfs_body_turn s :
  bfs_inv s ->
  turn g "BFS" goal bfs_rank (fun _ => 1) s (bfs_body g goal s).
Proof.
  intros [k Hk]. unfold bfs_body.
  destruct (frontier s) as [|[[n p] c] queue] eqn:Hf.
  - by apply turn_empty.
  - apply bfs_sorted_cons in Hk.
    assert (popped bfs_rank s (n, p, c) queue) as Hpop.
    { split; [by rewrite Hf|]. intros e' He'. by eapply bfs_sorted_least. }
    destruct (decide (n ∈ visited s)) as [Hn|Hn].
    + by apply_turn (turn_skip g "BFS" goal bfs_rank (fun _ => 1) s (n, p, c) queue).
    + destruct (decide (n = goal)) as [Hg|Hg].
      * apply_turn (turn_goal g "BFS" goal bfs_rank (fun _ => 1) s
                      (n, p, c) queue (get_path_distance g p)); try done.
        by right.
      * rewrite bfs_push_all.
        apply_turn (turn_expand g "BFS" goal bfs_rank (fun _ => 1) s
                      (n, p, c) queue
                      (pushes (fun y w => (y, p ++ [y], c + w))
                         ({[n]} ∪ visited s) (get_neighbors g n))); try done.
        -- by apply_turn (pushes_pushed_from g ({[n]} ∪ visited s) (n, p, c)
                            (fun y w => (y, p ++ [y], c + w))).
        -- apply pushes_length.
        -- intros y w Hyw Hy. exists (y, p ++ [y], c + w).
           split; [|split; [done|]].
           ++ apply elem_of_app. right.
              by apply (pushes_elem_of _ (fun y w => (y, p ++ [y], c + w))).
           ++ unfold bfs_rank. simpl. rewrite length_app. simpl. lia.
Qed.

Lemma bfs_body_inv s s' :
  bfs_inv s -> bfs_body g goal s = Continue s' -> bfs_inv s'.
Proof.
  intros [k Hk]. unfold bfs_body.
  destruct (frontier s) as [|[[n p] c] queue] eqn:Hf; [done|].
  apply bfs_sorted_cons in Hk.
  destruct (decide (n ∈ visited s)) as [Hn|Hn].
  - intros [= <-]. by exists (bfs_rank (n, p, c)).
  - destruct (decide (n = goal)) as [Hg|Hg]; [done|].
    intros [= <-]. exists (bfs_rank (n, p, c)). simpl.
    rewrite bfs_push_all. apply bfs_sorted_push; [done|].
    apply Forall_forall. intros e He. unfold pushes in He.
    apply list_elem_of_fmap in He as ([y w] & -> & _).
    unfold bfs_rank. simpl. rewrite length_app. simpl. lia.
Qed.

Lemma ucs_body_turn s :
  turn g "UCS" goal e_cost (fun w => w) s (ucs_body g goal s).
Proof.
  unfold ucs_body.
  destruct (heappop ucs_lt (frontier s)) as [[[[c n] p] queue]|] eqn:Hpop'.
  - apply (heappop_spec ucs_lt e_cost ucs_lt_cost ucs_not_lt_cost) in Hpop'.
    assert (popped e_cost s (c, n, p) queue) as Hpop by done.
    destruct (decide (n ∈ visited s)) as [Hn|Hn].
    + by apply_turn (turn_skip g "UCS" goal e_cost (fun w => w) s (c, n, p) queue).
    + destruct (decide (n = goal)) as [Hg|Hg].
      * apply_turn (turn_goal g "UCS" goal e_cost (fun w => w) s
                      (c, n, p) queue (Finite c)); try done.
        by left.
      * rewrite ucs_push_all.
        apply_turn (turn_expand g "UCS" goal e_cost (fun w => w) s
                      (c, n, p) queue
                      (pushes (fun y w => (c + w, y, p ++ [y]))
                         ({[n]} ∪ visited s) (get_neighbors g n))); try done.
        -- by apply_turn (pushes_pushed_from g ({[n]} ∪ visited s) (c, n, p)
                            (fun y w => (c + w, y, p ++ [y]))).
        -- apply pushes_length.
        -- intros y w Hyw Hy. exists (c + w, y, p ++ [y]).
           split; [|done]. apply elem_of_app. right.
           by apply (pushes_elem_of _ (fun y w => (c + w, y, p ++ [y]))).
  - apply heappop_None in Hpop'. by apply turn_empty.
Qed.

Lemma astar_push_all V path g_cost nbrs pq gc :
  astar_pushed V path g_cost pq gc
    (foldl (astar_push g goal V path g_cost) (pq, gc) nbrs) nbrs.
Proof.
  apply (foldl_ind (astar_push g goal V path g_cost)
           (astar_pushed V path g_cost pq gc)).
  - exists []. simpl. rewrite app_nil_r. repeat split; try done.
    + by left.
    + intros y w Hyw. inversion Hyw.
  - intros [pq1 gc1] [y w] seen (children & Hfr & Hch & Hlen & Hback & Hmono & Hcov).
    simpl in Hfr, Hback, Hmono, Hcov. subst pq1.
    assert (Forall (fun c => exists y0 w0, (y0, w0) ∈ seen ++ [(y, w)] /\ (y0 ∉ V) /\
                      e_node c = y0 /\ e_path c = path ++ [y0] /\
                      e_cost c = g_cost + w0) children) as Hch'.
    { eapply Forall_impl; [exact Hch|]. simpl.
      intros c (y0 & w0 & Hin & Hrest). exists y0, w0.
      split; [|done]. apply elem_of_app. by left. }
    assert (forall y0 w0, (y0, w0) ∈ seen ++ [(y, w)] -> y0 ∉ V ->
              (y ∉ V -> is_Some (gc1 !! y)) -> is_Some (gc1 !! y0)) as Hcov'.
    { intros y0 w0 Hin Hy0 Hy. apply elem_of_app in Hin as [Hin|Hin]; [by eapply Hcov|].
      apply list_elem_of_singleton in Hin as [= -> ->]. by apply Hy. }
    assert (y ∉ V ->
            astar_pushed V path g_cost pq gc
              (pq ++ children ++ [(Float.add (Float.of_int (g_cost + w))
                                     (euclidean_distance g y goal),
                                   g_cost + w, y, path ++ [y])],
               <[y := g_cost + w]> gc1) (seen ++ [(y, w)])) as Hpush.
    { intros HyV. eexists. split; [reflexivity|]. simpl.
      split.
      { apply Forall_app. split; [done|]. apply Forall_singleton.
        exists y, w. split; [|done]. apply elem_of_app. right. left. }
      split; [rewrite !length_app; simpl; lia|].
      split.
      { intros z Hz. destruct (decide (y = z)) as [->|Hne].
        - right. eexists. split; [apply elem_of_app; right; left|done].
        - rewrite lookup_insert_ne in Hz by done.
          destruct (Hback z Hz) as [?|(c & Hc & Hcn)]; [by left|].
          right. exists c. split; [|done]. apply elem_of_app. by left. }
      split.
      { intros z Hz. destruct (decide (y = z)) as [->|Hne].
        - by rewrite lookup_insert_eq.
        - rewrite lookup_insert_ne by done. by apply Hmono. }
      intros z w0 Hin Hz. destruct (decide (y = z)) as [->|Hne].
      - by rewrite lookup_insert_eq.
      - rewrite lookup_insert_ne by done.
        apply elem_of_app in Hin as [Hin|Hin]; [by eapply Hcov|].
        apply list_elem_of_singleton in Hin as [= -> ->]. done. }
    assert ((y ∉ V -> is_Some (gc1 !! y)) ->
            astar_pushed V path g_cost pq gc (pq ++ children, gc1)
              (seen ++ [(y, w)])) as Hkeep.
    { intros Hy. exists children. simpl. split; [done|]. split; [done|].
      split; [rewrite length_app; simpl; lia|]. split; [done|]. split; [done|].
      intros y0 w0 Hin Hy0. by eapply Hcov'. }
    simpl. destruct (decide (y ∈ V)) as [HyV|HyV]; [by apply Hkeep|].
    destruct (gc1 !! y) as [best|] eqn:Hbest.
    + destruct (best <=? g_cost + w).
      * apply Hkeep. eauto.
      * unfold heappush. rewrite <- app_assoc. by apply Hpush.
    + unfold heappush. rewrite <- app_assoc. by apply Hpush.
Qed.

Lemma astar_body_turn sg :
  astar_inv sg ->
  turn g "A*" goal (fun _ => 0) (fun _ => 0) sg.1
    (step_view fst (astar_body g goal sg)).
Proof.
  destruct sg as [s gc]. intros Hinv. unfold astar_body, astar_inv in *.
  simpl in Hinv. simpl fst.
  destruct (heappop astar_lt (frontier s)) as [[[[[f c] n] p] queue]|] eqn:Hpop'.
  - apply (heappop_spec astar_lt (fun _ => 0)) in Hpop'; [|done|done].
    assert (popped (fun _ => 0) s (f, c, n, p) queue) as Hpop by done.
    destruct (decide (n ∈ visited s)) as [Hn|Hn].
    + by apply_turn (turn_skip g "A*" goal (fun _ => 0) (fun _ => 0) s
                       (f, c, n, p) queue).
    + destruct (decide (n = goal)) as [Hg|Hg].
      * apply_turn (turn_goal g "A*" goal (fun _ => 0) (fun _ => 0) s
                      (f, c, n, p) queue (Finite c)); try done.
        by left.
      * pose proof (astar_push_all ({[n]} ∪ visited s) p c
                      (get_neighbors g n) queue gc) as Hall.
        destruct (foldl (astar_push g goal ({[n]} ∪ visited s) p c) (queue, gc)
                    (get_neighbors g n)) as [pq' gc'].
        destruct Hall as (children & Hfr & Hch & Hlen & Hback & Hmono & Hcov).
        simpl in Hfr, Hback, Hmono, Hcov. subst pq'. simpl.
        apply_turn (turn_expand g "A*" goal (fun _ => 0) (fun _ => 0) s
                      (f, c, n, p) queue children); try done.
        intros y w Hyw Hy.
        destruct (Hback y (Hcov y w Hyw Hy)) as [Hold|(c' & Hc' & Hn')].
        -- destruct (Hinv y Hold) as [?|(c' & Hc' & Hn')]; [set_solver|].
           exists c'. split; [|done]. destruct Hpop as [Hperm _].
           rewrite Hperm in Hc'. apply elem_of_cons in Hc' as [->|Hc'].
           ++ simpl in Hn'. set_solver.
           ++ apply elem_of_app. by left.
        -- exists c'. split; [|done]. apply elem_of_app. by right.
  - apply heappop_None in Hpop'. by apply turn_empty.
Qed.

Lemma astar_body_inv sg sg' :
  astar_inv sg -> astar_body g goal sg = Continue sg' -> astar_inv sg'.
Proof.
  destruct sg as [s gc]. intros Hinv. unfold astar_body, astar_inv in *.
  simpl in Hinv.
  destruct (heappop astar_lt (frontier s)) as [[[[[f c] n] p] queue]|] eqn:Hpop';
    [|done].
  apply (heappop_spec astar_lt (fun _ => 0)) in Hpop' as [Hperm _]; [|done|done].
  destruct (decide (n ∈ visited s)) as [Hn|Hn].
  - intros [= <-]. simpl. intros y Hy.
    destruct (Hinv y Hy) as [?|(c' & Hc' & Hn')]; [by left|].
    rewrite Hperm in Hc'. apply elem_of_cons in Hc' as [->|Hc'].
    + left. by rewrite <- Hn'.
    + right. by exists c'.
  - destruct (decide (n = goal)) as [Hg|Hg]; [done|].
    pose proof (astar_push_all ({[n]} ∪ visited s) p c
                  (get_neighbors g n) queue gc) as Hall.
    destruct (foldl (astar_push g goal ({[n]} ∪ visited s) p c) (queue, gc)
                (get_neighbors g n)) as [pq' gc'].
    destruct Hall as (children & Hfr & Hch & Hlen & Hback & Hmono & Hcov).
    simpl in Hfr, Hback, Hmono, Hcov. subst pq'.
    intros [= <-]. simpl. intros y Hy.
    destruct (Hback y Hy) as [Hold|(c' & Hc' & Hn')].
    + destruct (Hinv y Hold) as [?|(c' & Hc' & Hn')]; [left; set_solver|].
      rewrite Hperm in Hc'. apply elem_of_cons in Hc' as [->|Hc'].
      * left. simpl in Hn'. set_solver.
      * right. exists c'. split; [|done]. apply elem_of_app. by left.
    + right. exists c'. split; [|done]. apply elem_of_app. by right.
Qed.

End Turns.

(** ** The four strategies *)

Lemma step_view_id {S R : Type} (st : step S R) : step_view (fun s => s) st = st.
Proof. by destruct st. Qed.

Section Strategies.

Variables (g : CampusGraph) (start goal : string).

Lemma bfs_loop_spec :
  exists r,
    while_loop (bfs_body g goal) (search_fuel g)
      (initial_state (start, [start], 0)) = Some r /\
    search_post g "BFS" start goal bfs_rank (fun _ => 1) r.
Proof.
  apply (search_loop_spec g "BFS" start goal bfs_rank (fun _ => 1)
           ltac:(intros; lia) (bfs_body g goal) (fun s => s) bfs_inv)
    with (e0 := (start, [start], 0)); try done.
  - intros s Hs. rewrite step_view_id. by apply bfs_body_turn.
  - apply bfs_body_inv.
  - exists 0, [(start, [start], 0)], []. repeat split; by repeat constructor.
Qed.

Lemma dfs_loop_spec :
  exists r,
    while_loop (dfs_body g goal) (search_fuel g)
      (initial_state (start, [start], 0)) = Some r /\
    search_post g "DFS" start goal
      (fun _ : string * list string * Z => 0) (fun _ => 0) r.
Proof.
  apply (search_loop_spec g "DFS" start goal (fun _ => 0) (fun _ => 0)
           ltac:(intros; lia) (dfs_body g goal) (fun s => s) (fun _ => True))
    with (e0 := (start, [start], 0)); try done.
  intros s _. rewrite step_view_id. apply dfs_body_turn.
Qed.

Lemma ucs_loop_spec :
  nonneg_weights g ->
  exists r,
    while_loop (ucs_body g goal) (search_fuel g)
      (initial_state (0, start, [start])) = Some r /\
    search_post (E := Z * string * list string) g "UCS" start goal
      e_cost (fun w => w) r.
Proof.
  intros Hnn.
  apply (search_loop_spec g "UCS" start goal e_cost (fun w => w)
           (fun x y w Hd => neighbors_nonneg g x y w Hnn
                              (get_distance_neighbors g x y w Hd))
           (ucs_body g goal) (fun s => s) (fun _ => True))
    with (e0 := (0, start, [start])); try done.
  intros s _. rewrite step_view_id. apply ucs_body_turn.
Qed.

(** Without the assumption on the weights UCS still is a search. *)
Lemma ucs_loop_search :
  exists r,
    while_loop (ucs_body g goal) (search_fuel g)
      (initial_state (0, start, [start])) = Some r /\
    result_ok g "UCS" start goal r.
Proof.
  destruct (search_loop_spec g "UCS" start goal (fun _ => 0) (fun _ => 0)
              ltac:(intros; lia) (ucs_body g goal) (fun s => s) (fun _ => True))
    with (init := initial_state (0, start, [start])) (e0 := (0, start, [start]))
    as (r & Hr & Hok & _); try done.
  - intros s _. rewrite step_view_id.
    eapply turn_forget_rank, ucs_body_turn.
  - by exists r.
Qed.

Lemma astar_loop_spec :
  exists r,
    while_loop (astar_body g goal) (search_fuel g)
      (initial_state (euclidean_distance g start goal, 0, start, [start]),
       {[ start := 0 ]}) = Some r /\
    search_post g "A*" start goal
      (fun _ : Float.float * Z * string * list string => 0) (fun _ => 0) r.
Proof.
  apply (search_loop_spec g "A*" start goal (fun _ => 0) (fun _ => 0)
           ltac:(intros; lia) (astar_body g goal) fst astar_inv)
    with (e0 := (euclidean_distance g start goal, 0, start, [start])); try done.
  - apply astar_body_turn.
  - apply astar_body_inv.
  - intros y Hy. simpl in *. right. eexists. split; [left|]. simpl.
    apply lookup_singleton_is_Some in Hy. done.
Qed.

End Strategies.

Lemma trivial_path_ok g name a : result_ok g name a a (trivial_path name a).
Proof.
  split; [done|]. split; [apply NoDup_singleton|]. split; [done|]. left.
  split; [done|]. split; [apply connects_start|]. done.
Qed.

(** Between two valid nodes every strategy returns, and what it returns
    is a path of the graph or the exploration of all that [start] reaches. *)
Lemma search_valid st g start goal :
  is_valid_node g start = true -> is_valid_node g goal = true ->
  exists r, search st g start goal = Some r /\
            result_ok g (strategy_name st) start goal r.
Proof.
  intros Hs Hg.
  destruct st; simpl;
    unfold breadth_first_search, depth_first_search, uniform_cost_search,
      a_star_search;
    rewrite Hs, Hg; cbn [negb orb];
    (destruct (decide (start = goal)) as [->|Hne];
     [eexists; split; [reflexivity|apply trivial_path_ok]|]).
  - destruct (bfs_loop_spec g start goal) as (r & Hr & Hok & _). eauto.
  - destruct (dfs_loop_spec g start goal) as (r & Hr & Hok & _). eauto.
  - apply ucs_loop_search.
  - destruct (astar_loop_spec g start goal) as (r & Hr & Hok & _). eauto.
Qed.

Lemma search_invalid st g start goal :
  is_valid_node g start = false \/ is_valid_node g goal = false ->
  search st g start goal = Some (no_path (strategy_name st) [] []).
Proof.
  intros Hinvalid.
  assert (negb (is_valid_node g start) || negb (is_valid_node g goal) = true)
    as Hguard by (destruct Hinvalid as [-> | ->]; [done|apply orb_true_r]).
  destruct st; simpl;
    unfold breadth_first_search, depth_first_search, uniform_cost_search,
      a_star_search;
    by rewrite Hguard.
Qed.

Lemma search_same st g a :
  is_valid_node g a = true ->
  search st g a a = Some (trivial_path (strategy_name st) a).
Proof.
  intros Ha.
  destruct st; simpl;
    unfold breadth_first_search, depth_first_search, uniform_cost_search,
      a_star_search;
    rewrite Ha; cbn [negb orb]; by rewrite decide_True.
Qed.

(** Every call returns. *)
Lemma search_total st g start goal :
  exists r, search st g start goal = Some r /\
            nodes_explored r = exploration_order r /\
            NoDup (exploration_order r).
Proof.
  destruct (is_valid_node g start) eqn:Hs; [destruct (is_valid_node g goal) eqn:Hg|].
  - destruct (search_valid st g start goal Hs Hg) as (r & Hr & Hex & Hnd & _). eauto.
  - rewrite search_invalid by auto. eexists. split; [done|]. split; [done|constructor].
  - rewrite search_invalid by auto. eexists. split; [done|]. split; [done|constructor].
Qed.



(** Uniform-cost search returns a cheapest path when no weight is
    negative. *)
Lemma uniform_cost_search_optimal g start goal :
  graph_wf g -> nonneg_weights g ->
  is_valid_node g start = true -> is_valid_node g goal = true ->
  reachable g start goal ->
  exists r, uniform_cost_search g start goal = Some r /\
    success r = true /\
    connects g start goal (path r) /\
    get_path_distance g (path r) = cost r /\
    forall q, connects g start goal q ->
              distance_le (cost r) (get_path_distance g q).
Proof.
  intros Hwf Hnn Hs Hg Hreach. unfold uniform_cost_search.
  rewrite Hs, Hg. cbn [negb orb].
  destruct (decide (start = goal)) as [->|Hne].
  - eexists. split; [reflexivity|]. split; [done|].
    split; [apply connects_start|]. split; [done|].
    intros q Hq. rewrite (walk_distance g q) by apply Hq. simpl.
    apply (reach_nonneg g goal (fun w => w)) with (x := goal).
    + intros x y w Hd. eapply neighbors_nonneg; [done|].
      by apply get_distance_neighbors.
    + by apply connects_reach.
  - destruct (ucs_loop_spec g start goal Hnn) as (r & Hr & Hok & Hleast).
    exists r. split; [done|].
    destruct Hok as (_ & _ & _ & [(Hsucc & Hpath & _ & Hcost)|(_ & Hno & _)]);
      [|done].
    split; [done|]. split; [done|]. split; [by apply Hcost|].
    intros q Hq. destruct (Hleast Hsucc) as (e & _ & _ & He & Hmin).
    rewrite <- (Hcost Hwf), (He Hwf), (walk_distance g q) by apply Hq. simpl.
    by apply Hmin, connects_reach.
Qed.


(** ** Facts on floats *)

Module FloatFacts.

Import Float.



















End FloatFacts.



Section EuclideanDistance.

Import Float FloatFacts.





End EuclideanDistance.

(** ** The properties of the specification *)


(** C1 (the defect).  On the campus of the repository A* does not return a
    cheapest path: from the Water Treatment Area to Block A it returns the
    direct edge of 503 m, where uniform-cost search returns a path of
    450 m; from Block A to the Playing Ground it returns 530 m, more than
    the 400 m of breadth-first and uniform-cost search. *)
Theorem a_star_search_not_optimal_on_campus :
  (exists rA rU,
      a_star_search campus "Water Treatment Area" "Block A" = Some rA /\
      uniform_cost_search campus "Water Treatment Area" "Block A" = Some rU /\
      success rA = true /\ success rU = true /\
      path rA = ["Water Treatment Area"; "Block A"] /\
      cost rA = Finite 503 /\
      path rU = ["Water Treatment Area"; "Food Court"; "Block B"; "Block A"] /\
      cost rU = Finite 450 /\
      connects campus "Water Treatment Area" "Block A" (path rU) /\
      get_path_distance campus (path rU) = Finite 450) /\
  (exists rA rB rU,
      a_star_search campus "Block A" "Playing Ground" = Some rA /\
      breadth_first_search campus "Block A" "Playing Ground" = Some rB /\
      uniform_cost_search campus "Block A" "Playing Ground" = Some rU /\
      cost rA = Finite 530 /\ cost rB = Finite 400 /\ cost rU = Finite 400).
Proof.
  split.
  - eexists _, _. split; [vm_compute; reflexivity|].
    split; [vm_compute; reflexivity|]. by vm_compute.
  - eexists _, _, _. split; [vm_compute; reflexivity|].
    split; [vm_compute; reflexivity|].
    split; [vm_compute; reflexivity|]. by vm_compute.
Qed.




(** C3, as stated, fails: a query on a name that is no node raises
    nothing, it returns a result. *)
Lemma invalid_node_raises_nothing :
  is_valid_node campus "Nowhere" = false /\
  call BFS campus "Nowhere" "Library" = Some (Returns (no_path "BFS" [] [])) /\
  call BFS campus "Nowhere" "Library" <> Some (Raises InvalidNodeError).
Proof. split; [by vm_compute|]. split; [by vm_compute|]. by vm_compute. Qed.

(** C3 (amended).  If [start] or [goal] is no node of the graph, every
    strategy returns, with nothing explored, a result with
    [success = false], the empty path and cost 0; nothing is raised. *)
Theorem invalid_node_returns_failure st g start goal :
  is_valid_node g start = false \/ is_valid_node g goal = false ->
  call st g start goal
  = Some (Returns {| path := []; cost := Finite 0; nodes_explored := [];
                     exploration_order := []; algorithm := strategy_name st;
                     success := false |}).
Proof. intros Hinvalid. unfold call. by rewrite search_invalid. Qed.

Lemma invalid_node_returns_failure_witness :
  (is_valid_node campus "Nowhere" = false \/
   is_valid_node campus "Library" = false) /\
  call AStar campus "Nowhere" "Library"
  = Some (Returns {| path := []; cost := Finite 0; nodes_explored := [];
                     exploration_order := []; algorithm := "A*";
                     success := false |}).
Proof.
  split; [left; vm_compute; reflexivity|].
  apply (invalid_node_returns_failure AStar campus "Nowhere" "Library").
  left. vm_compute. reflexivity.
Defined.




(** C5.  For every successful result of any of the four strategies the
    cost of the path, computed again from the graph, is the cost of the
    result; UCS and A* report the cost they added up on the way. *)
Theorem path_cost_round_trip st g start goal r :
  graph_wf g ->
  search st g start goal = Some r -> success r = true ->
  get_path_distance g (path r) = cost r.
Proof.
  intros Hwf Hr Hsucc.
  destruct (is_valid_node g start) eqn:Hs; [destruct (is_valid_node g goal) eqn:Hg|].
  - destruct (search_valid st g start goal Hs Hg) as (r' & Hr' & _ & _ & _ & Hcases).
    rewrite Hr in Hr'. injection Hr' as <-.
    destruct Hcases as [(_ & _ & _ & Hcost)|(Heq & _)]; [by apply Hcost|].
    rewrite Heq in Hsucc. done.
  - rewrite search_invalid in Hr by auto. injection Hr as <-. done.
  - rewrite search_invalid in Hr by auto. injection Hr as <-. done.
Qed.

Lemma path_cost_round_trip_witness :
  graph_wf campus /\
  search UCS campus "Main Gate" "Library"
  = Some {| path := ["Main Gate"; "Library"]; cost := Finite 80;
            nodes_explored :=
              ["Main Gate"; "Admin Office"; "Flag Post"; "Security Office";
               "Auditorium"; "Block A"; "Library"];
            exploration_order :=
              ["Main Gate"; "Admin Office"; "Flag Post"; "Security Office";
               "Auditorium"; "Block A"; "Library"];
            algorithm := "UCS"; success := true |} /\
  get_path_distance campus ["Main Gate"; "Library"] = Finite 80.
Proof.
  assert (graph_wf campus) as Hwf
    by (apply (bool_decide_unpack _); vm_compute; exact I).
  split; [exact Hwf|]. split; [vm_compute; reflexivity|].
  apply (path_cost_round_trip UCS campus "Main Gate" "Library"
           {| path := ["Main Gate"; "Library"]; cost := Finite 80;
              nodes_explored :=
                ["Main Gate"; "Admin Office"; "Flag Post"; "Security Office";
                 "Auditorium"; "Block A"; "Library"];
              exploration_order :=
                ["Main Gate"; "Admin Office"; "Flag Post"; "Security Office";
                 "Auditorium"; "Block A"; "Library"];
              algorithm := "UCS"; success := true |});
    [exact Hwf|vm_compute; reflexivity|reflexivity].
Defined.

(** C6.  With [start = goal = A] for a valid node [A], each of the four
    strategies returns a successful result with path [[A]], cost 0 and a
    trace of the single node [A]. *)
Theorem start_equals_goal st g a :
  is_valid_node g a = true ->
  search st g a a
  = Some {| path := [a]; cost := Finite 0; nodes_explored := [a];
            exploration_order := [a]; algorithm := strategy_name st;
            success := true |}.
Proof. apply search_same. Qed.

Lemma start_equals_goal_witness :
  is_valid_node campus "Library" = true /\
  search DFS campus "Library" "Library"
  = Some {| path := ["Library"]; cost := Finite 0;
            nodes_explored := ["Library"]; exploration_order := ["Library"];
            algorithm := "DFS"; success := true |}.
Proof.
  split; [vm_compute; reflexivity|].
  apply (start_equals_goal DFS campus "Library"). vm_compute. reflexivity.
Defined.





(** C9.  In the result of any strategy, successful or not, no node occurs
    twice in [exploration_order], and [nodes_explored] is the same list. *)
Theorem exploration_has_no_repeats st g start goal :
  exists r, search st g start goal = Some r /\
    NoDup (exploration_order r) /\
    nodes_explored r = exploration_order r.
Proof.
  destruct (search_total st g start goal) as (r & Hr & Heq & Hnd). eauto.
Qed.


(** * Further properties of the code *)

(** ** Dicts *)

Lemma dict_get_set {V : Type} (k k' : string) (v : V) (d : list (string * V)) :
  dict_get k' (dict_set k v d)
  = if decide (k' = k) then Some v else dict_get k' d.
Proof.
  induction d as [|[k0 v0] d IH]; simpl.
  - destruct (String.eqb_spec k k'), (decide (k' = k)); congruence.
  - destruct (String.eqb_spec k0 k) as [->|Hne]; simpl.
    + destruct (String.eqb_spec k k'), (decide (k' = k)); congruence.
    + destruct (String.eqb_spec k0 k') as [->|Hne'].
      * by rewrite decide_False.
      * apply IH.
Qed.

Lemma dict_set_elem_of {V : Type} (k x : string) (v w : V) (d : list (string * V)) :
  (x, w) ∈ dict_set k v d -> (x = k /\ w = v) \/ (x, w) ∈ d.
Proof.
  induction d as [|[k0 v0] d IH]; simpl.
  - intros Hin. apply list_elem_of_singleton in Hin as [= -> ->]. by left.
  - destruct (String.eqb_spec k0 k) as [->|Hne]; intros Hin;
      apply elem_of_cons in Hin as [Hin|Hin].
    + injection Hin as -> ->. by left.
    + right. by right.
    + right. rewrite Hin. left.
    + destruct (IH Hin) as [?|?]; [by left|]. right. by right.
Qed.

Lemma dict_set_keys {V : Type} (k x : string) (v : V) (d : list (string * V)) :
  x ∈ (dict_set k v d).*1 <-> x = k \/ x ∈ d.*1.
Proof.
  induction d as [|[k0 v0] d IH]; simpl.
  - rewrite list_elem_of_singleton. split; [by left|]. intros [?|Hin]; [done|].
    inversion Hin.
  - destruct (String.eqb_spec k0 k) as [->|Hne]; simpl;
      rewrite !elem_of_cons; [tauto|]. rewrite IH. tauto.
Qed.

(** A dict still is a dict after [d[k] = v]. *)
Lemma dict_set_wf {V : Type} (k : string) (v : V) (d : list (string * V)) :
  dict_wf d -> dict_wf (dict_set k v d).
Proof.
  unfold dict_wf. induction d as [|[k0 v0] d IH]; simpl.
  - intros _. apply NoDup_singleton.
  - intros Hnd. apply NoDup_cons in Hnd as [Hk Hnd].
    destruct (String.eqb_spec k0 k) as [->|Hne]; simpl.
    + by apply NoDup_cons.
    + apply NoDup_cons. split; [|by apply IH].
      rewrite dict_set_keys. intros [?|?]; [congruence|done].
Qed.

Lemma dict_set_Forall {V : Type} (P : string * V -> Prop) (k : string) (v : V)
    (d : list (string * V)) :
  P (k, v) -> Forall P d -> Forall P (dict_set k v d).
Proof.
  intros Hkv. induction 1 as [|[k0 v0] d Hx Hd IH]; simpl.
  - by repeat constructor.
  - destruct (String.eqb_spec k0 k) as [->|Hne]; by constructor.
Qed.

(** ** The constructor *)

Lemma add_connections_foldl connections g :
  add_connections connections g = foldl add_connection g connections.
Proof. reflexivity. Qed.

(** The campus is what the constructor builds from the two tables. *)
Lemma campus_make_graph :
  campus = make_graph campus_coordinates campus_connections.
Proof. vm_compute. reflexivity. Qed.

Lemma init_nodes_nodes coords g :
  nodes (init_nodes coords g)
  = foldl (fun m kv => <[kv.1 := kv.2]> m) (nodes g) coords.
Proof.
  unfold init_nodes. revert g.
  induction coords as [|[n xy] coords IH]; intros g; [done|].
  simpl. by rewrite IH.
Qed.

Lemma init_nodes_coordinates coords g :
  coordinates (init_nodes coords g) = coordinates g.
Proof.
  unfold init_nodes. revert g.
  induction coords as [|[n xy] coords IH]; intros g; [done|].
  simpl. by rewrite IH.
Qed.

Lemma init_nodes_edges coords g n :
  edges (init_nodes coords g) !! n
  = if decide (n ∈ coords.*1) then Some [] else edges g !! n.
Proof.
  unfold init_nodes. revert g.
  induction coords as [|[k xy] coords IH]; intros g.
  - cbn [foldl]. case_decide as Hin; [inversion Hin|done].
  - cbn [foldl]. rewrite IH. cbn [edges fmap list_fmap fst].
    destruct (decide (n ∈ coords.*1)) as [Hin|Hin].
    + rewrite decide_True; [done|]. by right.
    + destruct (decide (n = k)) as [->|Hne].
      * rewrite lookup_insert_eq. rewrite decide_True; [done|]. left.
      * rewrite lookup_insert_ne by done.
        rewrite decide_False; [done|].
        intros Hin'. apply elem_of_cons in Hin' as [?|?]; done.
Qed.

Lemma dict_display_is_Some coords m n :
  is_Some (foldl (fun m kv => <[kv.1 := kv.2]> m) m coords !! n)
  <-> n ∈ coords.*1 \/ is_Some ((m : gmap string (Z * Z)) !! n).
Proof.
  revert m. induction coords as [|[k xy] coords IH]; intros m; simpl.
  - split; [by right|]. intros [Hin|?]; [inversion Hin|done].
  - rewrite IH, lookup_insert_is_Some', elem_of_cons. simpl.
    split; [intros [?|[?|?]]|intros [[?|?]|?]]; auto.
Qed.

Lemma add_connection_nodes g c : nodes (add_connection g c) = nodes g.
Proof.
  destruct c as [[n1 n2] d]. unfold add_connection.
  by destruct (is_valid_node g n1 && is_valid_node g n2).
Qed.

Lemma add_connection_coordinates g c :
  coordinates (add_connection g c) = coordinates g.
Proof.
  destruct c as [[n1 n2] d]. unfold add_connection.
  by destruct (is_valid_node g n1 && is_valid_node g n2).
Qed.

Lemma add_connection_valid g c n :
  is_valid_node (add_connection g c) n = is_valid_node g n.
Proof. unfold is_valid_node. by rewrite add_connection_nodes. Qed.

Lemma add_connections_nodes connections g :
  nodes (add_connections connections g) = nodes g.
Proof.
  rewrite add_connections_foldl. revert g.
  induction connections as [|c l IH]; intros g; [done|].
  simpl. by rewrite IH, add_connection_nodes.
Qed.

Lemma add_connections_coordinates connections g :
  coordinates (add_connections connections g) = coordinates g.
Proof.
  rewrite add_connections_foldl. revert g.
  induction connections as [|c l IH]; intros g; [done|].
  simpl. by rewrite IH, add_connection_coordinates.
Qed.

Lemma add_connections_valid connections g n :
  is_valid_node (add_connections connections g) n = is_valid_node g n.
Proof. unfold is_valid_node. by rewrite add_connections_nodes. Qed.

Lemma make_graph_valid coords connections n :
  is_valid_node (make_graph coords connections) n = true <-> n ∈ coords.*1.
Proof.
  unfold make_graph. rewrite add_connections_valid. unfold is_valid_node.
  rewrite bool_decide_eq_true, init_nodes_nodes, dict_display_is_Some. simpl.
  rewrite lookup_empty. split; [intros [?|[? ?]]; done|by left].
Qed.

(** The adjacency dict of a node once a connection is added, in a graph
    where every node has an adjacency dict. *)
Lemma get_neighbors_add_connection g n1 n2 d a :
  (forall n, is_valid_node g n = true -> is_Some (edges g !! n)) ->
  get_neighbors (add_connection g (n1, n2, d)) a
  = if is_valid_node g n1 && is_valid_node g n2 then
      (if decide (a = n2) then dict_set n1 d else fun adj => adj)
        ((if decide (a = n1) then dict_set n2 d else fun adj => adj)
           (get_neighbors g a))
    else get_neighbors g a.
Proof.
  intros Hadj. unfold add_connection.
  destruct (is_valid_node g n1) eqn:H1; [|done].
  destruct (is_valid_node g n2) eqn:H2; [|done].
  simpl. unfold get_neighbors. simpl. rewrite !lookup_alter.
  destruct (Hadj n1 H1) as [adj1 Hadj1], (Hadj n2 H2) as [adj2 Hadj2].
  destruct (decide (a = n2)) as [E2|Hn2], (decide (a = n1)) as [E1|Hn1];
    subst; repeat case_decide; try congruence;
    rewrite ?Hadj1, ?Hadj2; try done.
Qed.

(** The distance between two nodes once a connection is added: that of the
    connection if it joins the two, the distance from before otherwise. *)
Lemma get_distance_add_connection g c a b :
  (forall n, is_valid_node g n = true -> is_Some (edges g !! n)) ->
  get_distance (add_connection g c) a b
  = if is_valid_node g c.1.1 && is_valid_node g c.1.2 then
      if decide (joins a b c) then Some c.2 else get_distance g a b
    else get_distance g a b.
Proof.
  intros Hadj. destruct c as [[n1 n2] d].
  change (get_distance (add_connection g (n1, n2, d)) a b)
    with (dict_get b (get_neighbors (add_connection g (n1, n2, d)) a)).
  rewrite get_neighbors_add_connection by done.
  change (get_distance g a b) with (dict_get b (get_neighbors g a)).
  unfold joins. cbn [fst snd].
  destruct (is_valid_node g n1 && is_valid_node g n2); [|done].
  destruct (decide (a = n2)) as [E2|Hn2], (decide (a = n1)) as [E1|Hn1];
    rewrite ?dict_get_set; subst;
    repeat case_decide; try done; exfalso; naive_solver.
Qed.

Lemma graph_built_init coords coordinates0 :
  graph_built (init_nodes coords
                 {| nodes := ∅; edges := ∅; coordinates := coordinates0 |}).
Proof.
  set (g0 := {| nodes := ∅; edges := ∅; coordinates := coordinates0 |}).
  assert (forall n, get_neighbors (init_nodes coords g0) n = []) as Hnone.
  { intros n. unfold get_neighbors. rewrite init_nodes_edges.
    by destruct (decide (n ∈ coords.*1)). }
  split.
  - intros n. unfold is_valid_node.
    rewrite bool_decide_eq_true, init_nodes_nodes, dict_display_is_Some.
    rewrite init_nodes_edges. simpl. rewrite !lookup_empty.
    destruct (decide (n ∈ coords.*1)) as [Hin|Hin].
    + split; [eauto|by left].
    + split; [intros [?|[? ?]]; done|intros [? ?]; done].
  - intros n adj Hn. rewrite init_nodes_edges in Hn. simpl in Hn.
    destruct (decide (n ∈ coords.*1)); [|done]. injection Hn as <-.
    constructor.
  - intros a b.
    change (dict_get b (get_neighbors (init_nodes coords g0) a)
            = dict_get a (get_neighbors (init_nodes coords g0) b)).
    by rewrite !Hnone.
  - intros a b w Hin. rewrite Hnone in Hin. inversion Hin.
Qed.

Lemma graph_built_add_connection g c :
  graph_built g -> graph_built (add_connection g c).
Proof.
  intros [Hadj Hwf Hsym Hclosed].
  assert (forall n, is_valid_node g n = true -> is_Some (edges g !! n)) as Hadj'
    by (intros n; apply Hadj).
  assert (forall n, dict_wf (get_neighbors g n)) as Hwf'.
  { intros n. unfold get_neighbors.
    destruct (edges g !! n) as [adj|] eqn:Hn; [by apply (Hwf n adj)|].
    constructor. }
  destruct c as [[n1 n2] d]. split.
  - intros n. rewrite add_connection_valid, Hadj. unfold add_connection.
    destruct (is_valid_node g n1 && is_valid_node g n2); [|done].
    simpl. by rewrite !lookup_alter_is_Some.
  - intros n adj Hn.
    assert (adj = get_neighbors (add_connection g (n1, n2, d)) n) as ->
      by (unfold get_neighbors; by rewrite Hn).
    rewrite get_neighbors_add_connection by done.
    destruct (is_valid_node g n1 && is_valid_node g n2); [|apply Hwf'].
    destruct (decide (n = n2)), (decide (n = n1));
      repeat apply dict_set_wf; apply Hwf'.
  - intros a b. rewrite !get_distance_add_connection by done.
    rewrite Hsym.
    destruct (is_valid_node g (n1, n2, d).1.1 && is_valid_node g (n1, n2, d).1.2);
      [|done].
    unfold joins.
    destruct (decide ((n1, n2, d).1.1 = a /\ (n1, n2, d).1.2 = b \/
                      (n1, n2, d).1.1 = b /\ (n1, n2, d).1.2 = a)) as [H1|H1],
             (decide ((n1, n2, d).1.1 = b /\ (n1, n2, d).1.2 = a \/
                      (n1, n2, d).1.1 = a /\ (n1, n2, d).1.2 = b)) as [H2|H2];
      try done; exfalso; tauto.
  - intros a b w. rewrite !add_connection_valid.
    rewrite get_neighbors_add_connection by done.
    destruct (is_valid_node g n1) eqn:H1; [|apply Hclosed].
    destruct (is_valid_node g n2) eqn:H2; [|apply Hclosed].
    simpl.
    destruct (decide (a = n2)) as [E2|Hn2], (decide (a = n1)) as [E1|Hn1];
      subst; intros Hin;
      repeat (apply dict_set_elem_of in Hin as [[-> ->]|Hin]; [done|]);
      try (by apply Hclosed in Hin).
Qed.

Lemma graph_built_add_connections connections g :
  graph_built g -> graph_built (add_connections connections g).
Proof.
  rewrite add_connections_foldl. revert g.
  induction connections as [|c l IH]; intros g Hg; [done|].
  simpl. by apply IH, graph_built_add_connection.
Qed.

(** What the constructor builds is an undirected graph on its nodes. *)
Lemma make_graph_built coords connections :
  graph_built (make_graph coords connections).
Proof. apply graph_built_add_connections, graph_built_init. Qed.

Lemma campus_built : graph_built campus.
Proof. rewrite campus_make_graph. apply make_graph_built. Qed.

(** An edge of the graph comes from a connection of the list. *)
Lemma add_connections_listed connections g a b d :
  graph_built g ->
  get_distance (add_connections connections g) a b = Some d ->
  get_distance g a b = Some d \/
  exists c, c ∈ connections /\ joins a b c /\ c.2 = d.
Proof.
  rewrite add_connections_foldl. revert g.
  induction connections as [|c l IH]; intros g Hg; [by left|].
  simpl. intros Hd.
  destruct (IH _ (graph_built_add_connection g c Hg) Hd) as [Hd'|(c' & Hc' & Hj)].
  - rewrite get_distance_add_connection in Hd' by apply Hg.
    destruct (is_valid_node g c.1.1 && is_valid_node g c.1.2); [|by left].
    destruct (decide (joins a b c)) as [Hj|Hj]; [|by left].
    right. exists c. split; [left|]. split; [done|congruence].
  - right. exists c'. split; [by right|done].
Qed.

(** The connections that do not join two nodes leave their distance as it
    is. *)
Lemma add_connections_others connections g a b :
  graph_built g ->
  Forall (fun c => ~ joins a b c) connections ->
  get_distance (add_connections connections g) a b = get_distance g a b.
Proof.
  rewrite add_connections_foldl. revert g.
  induction connections as [|c l IH]; intros g Hg Hall; [done|].
  apply Forall_cons in Hall as [Hc Hall]. simpl.
  rewrite IH by (done || by apply graph_built_add_connection).
  rewrite get_distance_add_connection by apply Hg.
  destruct (is_valid_node g c.1.1 && is_valid_node g c.1.2); [|done].
  by rewrite decide_False.
Qed.

Lemma add_connections_nonneg connections g :
  graph_built g -> nonneg_weights g ->
  Forall (fun c => 0 <= c.2) connections ->
  nonneg_weights (add_connections connections g).
Proof.
  rewrite add_connections_foldl. revert g.
  induction connections as [|c l IH]; intros g Hg Hnn Hall; [done|].
  apply Forall_cons in Hall as [Hc Hall]. simpl.
  apply IH; [by apply graph_built_add_connection| |done].
  destruct c as [[n1 n2] d]. intros n adj Hn. simpl in Hc.
  assert (adj = get_neighbors (add_connection g (n1, n2, d)) n) as ->
    by (unfold get_neighbors; by rewrite Hn).
  assert (Forall (fun yw => 0 <= yw.2) (get_neighbors g n)) as Hold.
  { unfold get_neighbors. destruct (edges g !! n) as [adj'|] eqn:Hn'; [|constructor].
    apply (Hnn n adj' Hn'). }
  rewrite get_neighbors_add_connection by apply Hg.
  destruct (is_valid_node g n1 && is_valid_node g n2); [|done].
  destruct (decide (n = n2)), (decide (n = n1));
    repeat apply dict_set_Forall; done.
Qed.

(** ** The state a search loop returns from *)

Section SearchFinal.

Context {E : Type} `{Entry E} {S : Type}.
Variables (g : CampusGraph) (name start goal : string).
Variables (rank : E -> Z) (wt : Z -> Z).
Hypothesis wt_nonneg : forall x y w, get_distance g x y = Some w -> 0 <= wt w.

Variables (body : S -> step S SearchResult) (view : S -> search_state E).
Variable Inv : S -> Prop.
Hypothesis body_turn :
  forall s, Inv s -> turn g name goal rank wt (view s) (step_view view (body s)).
Hypothesis body_inv : forall s s', Inv s -> body s = Continue s' -> Inv s'.

Variable K : search_state E -> Prop.
Hypothesis K_turn : forall s s',
  search_inv g start goal rank wt s -> K s ->
  turn g name goal rank wt s (Continue s') -> K s'.

(** The loop returns from a state that satisfies what every turn keeps. *)
Lemma search_loop_final init e0 :
  Inv init -> view init = initial_state e0 ->
  e_node e0 = start -> e_path e0 = [start] -> e_cost e0 = 0 -> rank e0 <= 0 ->
  K (initial_state e0) ->
  exists r s, while_loop body (search_fuel g) init = Some r /\
    search_inv g start goal rank wt s /\ K s /\
    turn g name goal rank wt s (Return r).
Proof.
  intros Hinit Hview Hn Hp Hc Hr HK.
  destruct (search_loop_spec g name start goal rank wt wt_nonneg body view Inv
              body_turn body_inv init e0) as (r & Hloop & _); try done.
  set (J := fun s => Inv s /\ search_inv g start goal rank wt (view s) /\
                     K (view s)).
  assert (forall s s', J s -> body s = Continue s' -> J s') as HJ.
  { intros s s' (Hi & Hs & Hk) Hb.
    pose proof (body_turn s Hi) as Ht. rewrite Hb in Ht. simpl in Ht.
    split; [eauto|]. split; [eapply search_inv_turn; eauto|eauto]. }
  assert (J init) as HJ0.
  { split; [done|]. rewrite Hview. split; [by apply search_inv_initial|done]. }
  destruct (while_loop_returns body J HJ _ _ _ HJ0 Hloop)
    as (s' & (Hi & Hs & Hk) & Hb).
  exists r, (view s'). pose proof (body_turn s' Hi) as Ht. rewrite Hb in Ht.
  done.
Qed.

End SearchFinal.

(** ** Traces and paths *)

Section Traces.

Context {E : Type} `{Entry E}.
Variables (g : CampusGraph) (name start goal : string).
Variables (rank : E -> Z) (wt : Z -> Z).

Lemma trace_from_turn s s' :
  trace_from start s -> turn g name goal rank wt s (Continue s') ->
  trace_from start s'.
Proof.
  intros Htr Hturn.
  inversion Hturn as [ |e rest [Hp _] Hvis|
                     |e rest children fr' [Hp _] Hvis Hng Hch Hlen Hfr Hcov]; subst.
  - destruct Htr as [[Hnil Hall]|Hhead]; [left|by right]. simpl.
    split; [done|]. intros e' He'. apply Hall. rewrite Hp. by right.
  - right. simpl. destruct Htr as [[Hnil Hall]|Hhead].
    + rewrite Hnil. simpl. f_equal. apply Hall. rewrite Hp. left.
    + by destruct (exploration_order_so_far s).
Qed.

Lemma paths_simple_turn s s' :
  paths_simple s -> turn g name goal rank wt s (Continue s') ->
  paths_simple s'.
Proof.
  intros Hps Hturn.
  inversion Hturn as [ |e rest [Hp _] Hvis|
                     |e rest children fr' [Hp _] Hvis Hng Hch Hlen Hfr Hcov]; subst.
  - intros e' He'. simpl in *. apply Hps. rewrite Hp. by right.
  - intros c Hc. simpl in *. rewrite Hfr in Hc.
    apply elem_of_app in Hc as [Hc|Hc].
    + destruct (Hps c) as [Hnd Hin]; [rewrite Hp; by right|].
      split; [done|]. intros x Hx.
      destruct (Hin x Hx); [by left|right; set_solver].
    + rewrite Forall_forall in Hch.
      destruct (Hch c Hc) as (y & w & Hyw & Hy & Hcn & Hcp & _).
      destruct (Hps e) as [Hnd Hin]; [rewrite Hp; left|].
      assert (forall x, x ∈ e_path e -> x ∈ {[e_node e]} ∪ visited s) as Hsub.
      { intros x Hx. destruct (Hin x Hx) as [->|?]; set_solver. }
      rewrite Hcp, Hcn. split.
      * apply NoDup_app. split; [done|]. split; [|apply NoDup_singleton].
        intros x Hx Hx'. apply list_elem_of_singleton in Hx' as ->.
        apply Hy, Hsub, Hx.
      * intros x Hx. apply elem_of_app in Hx as [Hx|Hx].
        -- right. by apply Hsub.
        -- left. by apply list_elem_of_singleton in Hx.
Qed.

Lemma trace_ok_return s r :
  search_inv g start goal rank wt s -> trace_from start s -> paths_simple s ->
  turn g name goal rank wt s (Return r) -> trace_ok g start r.
Proof.
  intros Hinv Htr Hps Hturn.
  inversion Hturn as [Hnil| |e rest c [Hp _] Hvis Hgoal Hc|]; subst r;
    unfold trace_ok; simpl.
  - split; [|split; [|split]].
    + destruct Htr as [[Hnil' _]|?]; [|done].
      destruct (inv_start g start goal rank wt s Hinv) as [Hs|(e0 & He0 & _)].
      * apply (inv_visited g start goal rank wt s Hinv) in Hs.
        rewrite Hnil' in Hs. inversion Hs.
      * rewrite Hnil in He0. inversion He0.
    + intros x Hx. apply (inv_reached g start goal rank wt s Hinv).
      by apply (inv_visited g start goal rank wt s Hinv).
    + constructor.
    + intros x Hx. inversion Hx.
  - assert (e ∈ frontier s) as He by (rewrite Hp; left).
    destruct (Hps e He) as [Hnd Hin].
    split; [|split; [|split]].
    + destruct Htr as [[Hnil Hall]|Hhead].
      * rewrite Hnil. simpl. f_equal. by apply Hall.
      * by destruct (exploration_order_so_far s).
    + intros x Hx. apply elem_of_app in Hx as [Hx|Hx].
      * apply (inv_reached g start goal rank wt s Hinv).
        by apply (inv_visited g start goal rank wt s Hinv).
      * apply list_elem_of_singleton in Hx as ->. exists (e_path e).
        by apply (inv_paths g start goal rank wt s Hinv).
    + done.
    + intros x Hx. apply elem_of_app. destruct (Hin x Hx) as [->|Hv].
      * right. by apply list_elem_of_singleton.
      * left. by apply (inv_visited g start goal rank wt s Hinv).
Qed.

End Traces.

Section SearchLoopTrace.

Context {E : Type} `{Entry E} {S : Type}.
Variables (g : CampusGraph) (name start goal : string).
Variables (rank : E -> Z) (wt : Z -> Z).
Hypothesis wt_nonneg : forall x y w, get_distance g x y = Some w -> 0 <= wt w.

Variables (body : S -> step S SearchResult) (view : S -> search_state E).
Variable Inv : S -> Prop.
Hypothesis body_turn :
  forall s, Inv s -> turn g name goal rank wt (view s) (step_view view (body s)).
Hypothesis body_inv : forall s s', Inv s -> body s = Continue s' -> Inv s'.

Lemma search_loop_trace init e0 :
  Inv init -> view init = initial_state e0 ->
  e_node e0 = start -> e_path e0 = [start] -> e_cost e0 = 0 -> rank e0 <= 0 ->
  exists r, while_loop body (search_fuel g) init = Some r /\
            trace_ok g start r.
Proof.
  intros Hinit Hview Hn Hp Hc Hr.
  destruct (search_loop_final g name start goal rank wt wt_nonneg body view Inv
              body_turn body_inv
              (fun s => trace_from start s /\ paths_simple s))
    with (init := init) (e0 := e0)
    as (r & s & Hloop & Hinv & [Htr Hps] & Hturn); try done.
  - intros s s' _ [Htr Hps] Hturn.
    split; [eapply trace_from_turn|eapply paths_simple_turn]; eauto.
  - split.
    + left. simpl. split; [done|]. intros e He.
      by apply list_elem_of_singleton in He as ->.
    + intros e He. simpl in He. apply list_elem_of_singleton in He as ->.
      rewrite Hp. split; [apply NoDup_singleton|].
      intros x Hx. apply list_elem_of_singleton in Hx as ->. by left.
  - exists r. split; [done|]. eapply trace_ok_return; eauto.
Qed.

End SearchLoopTrace.

(** ** Strategies that pop by rank explore by rank *)

Section Ranked.

Context {E : Type} `{Entry E}.
Variables (g : CampusGraph) (name start goal : string).
Variables (rank : E -> Z) (wt : Z -> Z).
Hypothesis wt_nonneg : forall x y w, get_distance g x y = Some w -> 0 <= wt w.
Hypothesis child_rank : forall e V c,
  pushed_from g e V c ->
  exists w, get_distance g (e_node e) (e_node c) = Some w /\
            rank c = rank e + wt w.

(** The tuple popped for a node not yet visited carries the least weight
    of that node, which is no less than those of the nodes explored
    before. *)
Lemma trace_ranked_pop s e rest ds :
  search_inv g start goal rank wt s ->
  popped rank s e rest -> e_node e ∉ visited s ->
  Forall2 (least_weight g wt start) (exploration_order_so_far s) ds ->
  StronglySorted Z.le ds ->
  (forall d e, d ∈ ds -> e ∈ frontier s -> d <= rank e) ->
  (forall e, e ∈ frontier s -> reach g wt start (e_node e) (rank e)) ->
  Forall2 (least_weight g wt start)
    (exploration_order_so_far s ++ [e_node e]) (ds ++ [rank e]) /\
  StronglySorted Z.le (ds ++ [rank e]).
Proof.
  intros Hinv Hpop Hvis Hds Hsorted Hle Hreach.
  assert (e ∈ frontier s) as He by (destruct Hpop as [Hp _]; rewrite Hp; left).
  split.
  - apply Forall2_app; [done|]. constructor; [|constructor].
    split; [by apply Hreach|].
    by apply (popped_least g start goal rank wt wt_nonneg s e rest).
  - apply StronglySorted_app_2; [|done|repeat constructor].
    intros d1 d2 Hd1 Hd2. apply list_elem_of_singleton in Hd2 as ->.
    by apply Hle.
Qed.

Lemma trace_ranked_turn s s' :
  search_inv g start goal rank wt s -> trace_ranked g rank wt start s ->
  turn g name goal rank wt s (Continue s') ->
  trace_ranked g rank wt start s'.
Proof.
  intros Hinv (ds & Hds & Hsorted & Hle & Hreach) Hturn.
  inversion Hturn as [ |e rest Hpop Hvis|
                     |e rest children fr' Hpop Hvis Hng Hch Hlen Hfr Hcov]; subst.
  - destruct Hpop as [Hp _]. exists ds. simpl.
    split; [done|]. split; [done|]. split.
    + intros d e' Hd He'. apply Hle; [done|]. rewrite Hp. by right.
    + intros e' He'. apply Hreach. rewrite Hp. by right.
  - destruct (trace_ranked_pop s e rest ds) as [Hds' Hsorted']; try done.
    assert (e ∈ frontier s) as He
      by (destruct Hpop as [Hp _]; rewrite Hp; left).
    exists (ds ++ [rank e]). simpl. split; [done|]. split; [done|].
    rewrite Forall_forall in Hch. split.
    + intros d c Hd Hc. rewrite Hfr in Hc.
      assert (rank e <= rank c) as Hec.
      { apply elem_of_app in Hc as [Hc|Hc].
        - destruct Hpop as [_ Hmin]. by apply Hmin.
        - destruct (child_rank _ _ _ (Hch c Hc)) as (w & Hd' & ->).
          pose proof (wt_nonneg _ _ _ Hd'). lia. }
      apply elem_of_app in Hd as [Hd|Hd].
      * specialize (Hle d e Hd He). lia.
      * by apply list_elem_of_singleton in Hd as ->.
    + intros c Hc. rewrite Hfr in Hc. apply elem_of_app in Hc as [Hc|Hc].
      * apply Hreach. destruct Hpop as [Hp _]. rewrite Hp. by right.
      * destruct (child_rank _ _ _ (Hch c Hc)) as (w & Hd' & ->).
        eapply reach_step; [|done]. by apply Hreach.
Qed.

Lemma trace_ranked_return s r :
  search_inv g start goal rank wt s -> trace_ranked g rank wt start s ->
  turn g name goal rank wt s (Return r) ->
  exists ds, Forall2 (least_weight g wt start) (exploration_order r) ds /\
             StronglySorted Z.le ds.
Proof.
  intros Hinv (ds & Hds & Hsorted & Hle & Hreach) Hturn.
  inversion Hturn as [Hnil| |e rest c Hpop Hvis Hgoal Hc|]; subst r; simpl.
  - by exists ds.
  - exists (ds ++ [rank e]). by apply (trace_ranked_pop s e rest ds).
Qed.

End Ranked.

Section SearchLoopRanked.

Context {E : Type} `{Entry E} {S : Type}.
Variables (g : CampusGraph) (name start goal : string).
Variables (rank : E -> Z) (wt : Z -> Z).
Hypothesis wt_nonneg : forall x y w, get_distance g x y = Some w -> 0 <= wt w.
Hypothesis child_rank : forall e V c,
  pushed_from g e V c ->
  exists w, get_distance g (e_node e) (e_node c) = Some w /\
            rank c = rank e + wt w.

Variables (body : S -> step S SearchResult) (view : S -> search_state E).
Variable Inv : S -> Prop.
Hypothesis body_turn :
  forall s, Inv s -> turn g name goal rank wt (view s) (step_view view (body s)).
Hypothesis body_inv : forall s s', Inv s -> body s = Continue s' -> Inv s'.

Lemma search_loop_ranked init e0 :
  Inv init -> view init = initial_state e0 ->
  e_node e0 = start -> e_path e0 = [start] -> e_cost e0 = 0 -> rank e0 = 0 ->
  exists r ds, while_loop body (search_fuel g) init = Some r /\
    Forall2 (least_weight g wt start) (exploration_order r) ds /\
    StronglySorted Z.le ds.
Proof.
  intros Hinit Hview Hn Hp Hc Hr.
  destruct (search_loop_final g name start goal rank wt wt_nonneg body view Inv
              body_turn body_inv (trace_ranked g rank wt start))
    with (init := init) (e0 := e0)
    as (r & s & Hloop & Hinv & Hk & Hturn); try done.
  - intros s s' Hinv Hk Hturn.
    by apply (trace_ranked_turn g name start goal rank wt wt_nonneg child_rank s s').
  - lia.
  - exists []. simpl. split; [constructor|]. split; [constructor|]. split.
    + intros d e Hd. inversion Hd.
    + intros e He. apply list_elem_of_singleton in He as ->.
      rewrite Hn, Hr. constructor.
  - destruct (trace_ranked_return g name start goal rank wt wt_nonneg s r
                Hinv Hk Hturn) as (ds & Hds & Hsorted).
    by exists r, ds.
Qed.

End SearchLoopRanked.

Lemma bfs_child_rank g (e : string * list string * Z) V c :
  pushed_from g e V c ->
  exists w, get_distance g (e_node e) (e_node c) = Some w /\
            bfs_rank c = bfs_rank e + 1.
Proof.
  intros (y & w & Hyw & _ & Hn & Hp & _).
  destruct (neighbors_get_distance g _ _ _ Hyw) as [w' Hd].
  exists w'. rewrite Hn. split; [done|].
  unfold bfs_rank. rewrite Hp, length_app. simpl. lia.
Qed.

Lemma ucs_child_rank g (e : Z * string * list string) V c :
  graph_wf g -> pushed_from g e V c ->
  exists w, get_distance g (e_node e) (e_node c) = Some w /\
            e_cost c = e_cost e + w.
Proof.
  intros Hwf (y & w & Hyw & _ & Hn & _ & Hc).
  exists w. rewrite Hn. split; [|done].
  by apply neighbors_get_distance_wf.
Qed.

(** The least weight of [start] is 0 when no edge weighs less than 0. *)
Lemma least_weight_start g wt start :
  (forall x y w, get_distance g x y = Some w -> 0 <= wt w) ->
  least_weight g wt start start 0.
Proof.
  intros Hnn. split; [constructor|].
  intros d' Hd'. by apply (reach_nonneg g start wt Hnn start).
Qed.

(** Between two valid nodes the trace of every strategy begins with
    [start] and stays within its reach, and the path returned goes once
    through nodes of the trace. *)
Lemma search_trace st g start goal :
  is_valid_node g start = true -> is_valid_node g goal = true ->
  exists r, search st g start goal = Some r /\ trace_ok g start r.
Proof.
  intros Hs Hg.
  assert (trace_ok g goal (trivial_path (strategy_name st) goal)) as Htriv.
  { split; [done|]. split; [|split].
    - intros x Hx. apply list_elem_of_singleton in Hx as ->.
      exists [goal]. apply connects_start.
    - apply NoDup_singleton.
    - done. }
  destruct st; simpl;
    unfold breadth_first_search, depth_first_search, uniform_cost_search,
      a_star_search;
    rewrite Hs, Hg; cbn [negb orb];
    (destruct (decide (start = goal)) as [->|Hne];
     [eexists; split; [reflexivity|apply Htriv]|]).
  - apply (search_loop_trace g "BFS" start goal bfs_rank (fun _ => 1)
             ltac:(intros; lia) (bfs_body g goal) (fun s => s) bfs_inv)
      with (e0 := (start, [start], 0)); try done.
    + intros s Hi. rewrite step_view_id. by apply bfs_body_turn.
    + apply bfs_body_inv.
    + exists 0, [(start, [start], 0)], []. repeat split; by repeat constructor.
  - apply (search_loop_trace g "DFS" start goal (fun _ => 0) (fun _ => 0)
             ltac:(intros; lia) (dfs_body g goal) (fun s => s) (fun _ => True))
      with (e0 := (start, [start], 0)); try done.
    intros s _. rewrite step_view_id. apply dfs_body_turn.
  - apply (search_loop_trace g "UCS" start goal (fun _ => 0) (fun _ => 0)
             ltac:(intros; lia) (ucs_body g goal) (fun s => s) (fun _ => True))
      with (e0 := (0, start, [start])); try done.
    intros s _. rewrite step_view_id.
    eapply turn_forget_rank, ucs_body_turn.
  - apply (search_loop_trace g "A*" start goal (fun _ => 0) (fun _ => 0)
             ltac:(intros; lia) (astar_body g goal) fst astar_inv)
      with (e0 := (euclidean_distance g start goal, 0, start, [start]));
      try done.
    + apply astar_body_turn.
    + apply astar_body_inv.
    + intros y Hy. simpl in *. right. eexists. split; [left|]. simpl.
      apply lookup_singleton_is_Some in Hy. done.
Qed.

(** A node within reach of a node of the graph is a node of the graph,
    when every edge leads to a node. *)
Lemma reachable_valid g start x :
  (forall a b w, (b, w) ∈ get_neighbors g a -> is_valid_node g b = true) ->
  is_valid_node g start = true -> reachable g start x ->
  is_valid_node g x = true.
Proof.
  intros Hclosed Hs [p Hp].
  apply (connects_reach g (fun _ => 0)) in Hp.
  induction Hp as [|x y w r _ _ Hd]; [done|].
  eapply Hclosed, get_distance_neighbors, Hd.
Qed.

(** A list of nodes without repeats is no longer than the graph has
    nodes. *)
Lemma nodes_length_le g (l : list string) :
  NoDup l -> (forall x, x ∈ l -> is_valid_node g x = true) ->
  (length l <= size (nodes g))%nat.
Proof.
  intros Hnd Hall.
  rewrite <- (size_list_to_set (C := gset string) l Hnd).
  rewrite <- (size_dom (D := gset string) (nodes g)).
  apply subseteq_size. intros x Hx. apply elem_of_list_to_set in Hx.
  apply elem_of_dom. specialize (Hall x Hx).
  unfold is_valid_node in Hall. by apply bool_decide_eq_true in Hall.
Qed.

(** ** Distances of paths *)

Section PathDistance.

Variable g : CampusGraph.

Lemma is_walk_cons a b p :
  is_walk g (a :: b :: p)
  = bool_decide (is_Some (get_distance g a b)) && is_walk g (b :: p).
Proof. reflexivity. Qed.

Lemma walk_weight_cons wt a b p :
  walk_weight g wt (a :: b :: p)
  = match get_distance g a b with
    | Some w => wt w + walk_weight g wt (b :: p)
    | None => walk_weight g wt (b :: p)
    end.
Proof. reflexivity. Qed.

Lemma path_distance_loop_cons acc a b p :
  path_distance_loop g acc (a :: b :: p)
  = match get_distance g a b with
    | None => Infinite
    | Some d => path_distance_loop g (acc + d) (b :: p)
    end.
Proof. reflexivity. Qed.

(** The loop leaves with infinity when two consecutive nodes have no
    edge. *)
Lemma path_distance_loop_broken acc p :
  is_walk g p = false -> path_distance_loop g acc p = Infinite.
Proof.
  revert acc. induction p as [|a p IH]; intros acc; [done|].
  destruct p as [|b p]; [done|].
  rewrite is_walk_cons, path_distance_loop_cons.
  destruct (get_distance g a b) as [d|]; [|done].
  rewrite bool_decide_true by eauto. simpl. apply IH.
Qed.

Lemma get_path_distance_spec p :
  get_path_distance g p
  = if is_walk g p then Finite (walk_weight g (fun w => w) p) else Infinite.
Proof.
  destruct (is_walk g p) eqn:Hw; [by apply walk_distance|].
  rewrite get_path_distance_loop. by apply path_distance_loop_broken.
Qed.

Lemma is_walk_app p x q :
  is_walk g (p ++ x :: q) = is_walk g (p ++ [x]) && is_walk g (x :: q).
Proof.
  induction p as [|a p IH]; [done|].
  destruct p as [|b p].
  - simpl app. rewrite !is_walk_cons. simpl. by rewrite andb_true_r.
  - change ((a :: b :: p) ++ x :: q) with (a :: b :: (p ++ x :: q)).
    change ((a :: b :: p) ++ [x]) with (a :: b :: (p ++ [x])).
    rewrite !is_walk_cons. simpl app in IH. rewrite IH. by rewrite andb_assoc.
Qed.

Lemma walk_weight_app wt p x q :
  walk_weight g wt (p ++ x :: q)
  = walk_weight g wt (p ++ [x]) + walk_weight g wt (x :: q).
Proof.
  induction p as [|a p IH]; [done|].
  destruct p as [|b p].
  - simpl app. rewrite !walk_weight_cons. simpl.
    destruct (get_distance g a x); lia.
  - change ((a :: b :: p) ++ x :: q) with (a :: b :: (p ++ x :: q)).
    change ((a :: b :: p) ++ [x]) with (a :: b :: (p ++ [x])).
    rewrite !walk_weight_cons. simpl app in IH. rewrite IH.
    destruct (get_distance g a b); lia.
Qed.

Hypothesis symmetric : forall a b, get_distance g a b = get_distance g b a.

Lemma is_walk_reverse p : is_walk g (reverse p) = is_walk g p.
Proof.
  induction p as [|a p IH]; [done|].
  destruct p as [|b p]; [done|].
  rewrite (reverse_cons _ a), is_walk_cons.
  rewrite (is_walk_snoc g _ b a) by (by rewrite last_reverse).
  rewrite IH, (symmetric b a). apply andb_comm.
Qed.

Lemma walk_weight_reverse wt p :
  walk_weight g wt (reverse p) = walk_weight g wt p.
Proof.
  induction p as [|a p IH]; [done|].
  destruct p as [|b p]; [done|].
  rewrite (reverse_cons _ a), walk_weight_cons.
  assert (walk_weight g wt (reverse (b :: p) ++ [a])
          = walk_weight g wt (reverse (b :: p))
            + match get_distance g b a with Some w => wt w | None => 0 end)
    as ->.
  { assert (last (reverse (b :: p)) = Some b) as Hl by (by rewrite last_reverse).
    revert Hl. generalize (reverse (b :: p)). intros l.
    induction l as [|c l IHl]; [done|]. destruct l as [|c' l].
    - intros [= ->]. simpl. destruct (get_distance g b a); lia.
    - rewrite last_cons_cons. intros Hl.
      change ((c :: c' :: l) ++ [a]) with (c :: c' :: (l ++ [a])).
      rewrite !walk_weight_cons. simpl app in IHl. rewrite (IHl Hl).
      destruct (get_distance g c c'); lia. }
  rewrite IH, (symmetric b a). destruct (get_distance g a b); lia.
Qed.

End PathDistance.

(** ** Paths backwards and end to end *)

Lemma connects_reverse g a b p :
  (forall x y, get_distance g x y = get_distance g y x) ->
  connects g a b p -> connects g b a (reverse p).
Proof.
  intros Hsym (Hh & Hl & Hw). split; [|split].
  - by rewrite head_reverse.
  - by rewrite last_reverse.
  - by rewrite is_walk_reverse.
Qed.

Lemma reachable_symmetric g a b :
  (forall x y, get_distance g x y = get_distance g y x) ->
  reachable g a b -> reachable g b a.
Proof. intros Hsym [p Hp]. exists (reverse p). by apply connects_reverse. Qed.

(** A path to [b] followed by a path from [b]. *)
Lemma connects_app g a b c p q :
  connects g a b (p ++ [b]) -> connects g b c (b :: q) ->
  connects g a c (p ++ b :: q).
Proof.
  intros (Hh & _ & Hw) (_ & Hl & Hw'). split; [|split].
  - destruct p; [|done]. simpl in *. done.
  - rewrite last_app. by rewrite Hl.
  - by rewrite is_walk_app, Hw, Hw'.
Qed.

Lemma get_path_distance_app g p x q :
  get_path_distance g (p ++ x :: q)
  = distance_add (get_path_distance g (p ++ [x]))
                 (get_path_distance g (x :: q)).
Proof.
  rewrite !get_path_distance_spec, is_walk_app, walk_weight_app.
  by destruct (is_walk g (p ++ [x])), (is_walk g (x :: q)).
Qed.

Lemma get_path_distance_reverse g p :
  (forall x y, get_distance g x y = get_distance g y x) ->
  get_path_distance g (reverse p) = get_path_distance g p.
Proof.
  intros Hsym. rewrite !get_path_distance_spec.
  by rewrite is_walk_reverse, walk_weight_reverse.
Qed.

Lemma make_graph_nonneg coords connections :
  Forall (fun c => 0 <= c.2) connections ->
  nonneg_weights (make_graph coords connections).
Proof.
  intros Hall.
  apply add_connections_nonneg; [apply graph_built_init| |done].
  intros n adj Hn. rewrite init_nodes_edges in Hn.
  destruct (decide (n ∈ coords.*1)); [|done]. injection Hn as <-. constructor.
Qed.

Lemma distance_le_antisym a b : distance_le a b -> distance_le b a -> a = b.
Proof. destruct a, b; simpl; try done. intros. f_equal. lia. Qed.

(** A failed search has no path and cost 0. *)
Lemma search_failure st g start goal r :
  search st g start goal = Some r -> success r = false ->
  path r = [] /\ cost r = Finite 0.
Proof.
  intros Hr Hfail.
  destruct (is_valid_node g start) eqn:Hs; [destruct (is_valid_node g goal) eqn:Hg|].
  - destruct (search_valid st g start goal Hs Hg) as (r' & Hr' & _ & _ & _ & Hcases).
    rewrite Hr in Hr'. injection Hr' as <-.
    destruct Hcases as [(Hsucc & _)|(Heq & _)]; [congruence|].
    by rewrite Heq.
  - rewrite search_invalid in Hr by auto. by injection Hr as <-.
  - rewrite search_invalid in Hr by auto. by injection Hr as <-.
Qed.

(** ** The trace only grows *)

Lemma while_loop_S {S R : Type} (body : S -> step S R) fuel s :
  while_loop body (Datatypes.S fuel) s
  = match body s with
    | Return r => Some r
    | Continue s' => while_loop body fuel s'
    end.
Proof. reflexivity. Qed.

Section TracePrefix.

Context {E : Type} `{Entry E} {S : Type}.
Variables (g : CampusGraph) (name goal : string).
Variables (rank : E -> Z) (wt : Z -> Z).
Variables (body : S -> step S SearchResult) (view : S -> search_state E).
Variable Inv : S -> Prop.
Hypothesis body_turn :
  forall s, Inv s -> turn g name goal rank wt (view s) (step_view view (body s)).
Hypothesis body_inv : forall s s', Inv s -> body s = Continue s' -> Inv s'.

Lemma turn_trace_prefix s st :
  turn g name goal rank wt s st ->
  match st with
  | Continue s' =>
      exploration_order_so_far s `prefix_of` exploration_order_so_far s'
  | Return r => exploration_order_so_far s `prefix_of` exploration_order r
  end.
Proof.
  destruct 1; simpl; try done; by apply prefix_app_r.
Qed.

(** What is explored when a turn begins stays at the head of the trace of
    the result. *)
Lemma while_loop_trace_prefix fuel s r :
  Inv s -> while_loop body fuel s = Some r ->
  exploration_order_so_far (view s) `prefix_of` exploration_order r.
Proof.
  revert s. induction fuel as [|fuel IH]; intros s Hi; [done|].
  rewrite while_loop_S.
  pose proof (turn_trace_prefix _ _ (body_turn s Hi)) as Ht.
  destruct (body s) as [s'|r'] eqn:Hb; simpl in Ht.
  - intros Hr. etrans; [exact Ht|]. apply (IH s'); eauto.
  - by intros [= ->].
Qed.

End TracePrefix.

(** ** The node explored second *)

Lemma bfs_second g start goal n1 w1 rest :
  start <> goal -> get_neighbors g start = (n1, w1) :: rest -> n1 <> start ->
  exists r more,
    while_loop (bfs_body g goal) (search_fuel g)
      (initial_state (start, [start], 0)) = Some r /\
    exploration_order r = start :: n1 :: more.
Proof.
  intros Hne Hnbrs Hn1.
  destruct (bfs_loop_spec g start goal) as (r & Hr0 & _). exists r.
  pose proof Hr0 as Hr.
  assert (bfs_inv (initial_state (start, [start], 0))) as Hi0
    by (exists 0, [(start, [start], 0)], []; repeat split; by repeat constructor).
  rewrite search_fuel_pending in Hr.
  change (2 + pending (edges g) ∅)%nat
    with (Datatypes.S (Datatypes.S (pending (edges g) ∅))) in Hr.
  rewrite while_loop_S in Hr.
  destruct (bfs_body g goal (initial_state (start, [start], 0)))
    as [s1|r1] eqn:Hb1.
  2: { unfold bfs_body in Hb1. simpl in Hb1.
       rewrite decide_False in Hb1 by set_solver.
       by rewrite decide_False in Hb1. }
  pose proof (bfs_body_inv g goal _ _ Hi0 Hb1) as Hi1.
  unfold bfs_body in Hb1. simpl in Hb1.
  rewrite decide_False in Hb1 by set_solver.
  rewrite decide_False in Hb1 by done.
  rewrite bfs_push_all, Hnbrs, pushes_cons in Hb1.
  rewrite decide_False in Hb1 by set_solver.
  injection Hb1 as <-.
  rewrite while_loop_S in Hr.
  destruct (bfs_body g goal _) as [s2|r2] eqn:Hb2 in Hr.
  - pose proof (bfs_body_inv g goal _ _ Hi1 Hb2) as Hi2.
    unfold bfs_body in Hb2. simpl in Hb2.
    rewrite decide_False in Hb2 by set_solver.
    destruct (decide (n1 = goal)); [done|]. injection Hb2 as <-.
    assert (forall s, bfs_inv s ->
              turn g "BFS" goal bfs_rank (fun _ => 1) s
                (step_view (fun s => s) (bfs_body g goal s))) as Hturn
      by (intros s Hs; rewrite step_view_id; by apply bfs_body_turn).
    destruct (while_loop_trace_prefix g "BFS" goal bfs_rank (fun _ => 1)
                (bfs_body g goal) (fun s => s) bfs_inv Hturn
                (bfs_body_inv g goal) _ _ _ Hi2 Hr) as [more Hmore].
    exists more. split; [done|]. by rewrite Hmore.
  - injection Hr as <-. unfold bfs_body in Hb2. simpl in Hb2.
    rewrite decide_False in Hb2 by set_solver.
    destruct (decide (n1 = goal)); [|done]. injection Hb2 as <-.
    by exists [].
Qed.

Lemma dfs_second g start goal n1 w1 rest :
  start <> goal -> get_neighbors g start = (n1, w1) :: rest -> n1 <> start ->
  exists r more,
    while_loop (dfs_body g goal) (search_fuel g)
      (initial_state (start, [start], 0)) = Some r /\
    exploration_order r = start :: n1 :: more.
Proof.
  intros Hne Hnbrs Hn1.
  destruct (dfs_loop_spec g start goal) as (r & Hr0 & _). exists r.
  pose proof Hr0 as Hr.
  rewrite search_fuel_pending in Hr.
  change (2 + pending (edges g) ∅)%nat
    with (Datatypes.S (Datatypes.S (pending (edges g) ∅))) in Hr.
  rewrite while_loop_S in Hr.
  destruct (dfs_body g goal (initial_state (start, [start], 0)))
    as [s1|r1] eqn:Hb1.
  2: { unfold dfs_body in Hb1. simpl in Hb1.
       rewrite decide_False in Hb1 by set_solver.
       by rewrite decide_False in Hb1. }
  unfold dfs_body in Hb1. simpl in Hb1.
  rewrite decide_False in Hb1 by set_solver.
  rewrite decide_False in Hb1 by done.
  rewrite dfs_push_all, Hnbrs, pushes_cons in Hb1.
  rewrite decide_False in Hb1 by set_solver.
  injection Hb1 as <-.
  rewrite while_loop_S in Hr.
  destruct (dfs_body g goal _) as [s2|r2] eqn:Hb2 in Hr.
  - unfold dfs_body in Hb2. simpl in Hb2.
    rewrite decide_False in Hb2 by set_solver.
    destruct (decide (n1 = goal)); [done|]. injection Hb2 as <-.
    assert (forall s, True ->
              turn g "DFS" goal (fun _ => 0) (fun _ => 0) s
                (step_view (fun s => s) (dfs_body g goal s))) as Hturn
      by (intros s _; rewrite step_view_id; by apply dfs_body_turn).
    destruct (while_loop_trace_prefix g "DFS" goal (fun _ => 0) (fun _ => 0)
                (dfs_body g goal) (fun s => s) (fun _ => True) Hturn
                (fun _ _ _ _ => I) _ _ _ I Hr) as [more Hmore].
    exists more. split; [done|]. by rewrite Hmore.
  - injection Hr as <-. unfold dfs_body in Hb2. simpl in Hb2.
    rewrite decide_False in Hb2 by set_solver.
    destruct (decide (n1 = goal)); [|done]. injection Hb2 as <-.
    by exists [].
Qed.

(** ** The order of the neighbours *)

Lemma dict_set_head {V : Type} (k : string) (v : V) (d : list (string * V)) :
  d <> [] -> head (dict_set k v d).*1 = head d.*1.
Proof.
  destruct d as [|[k0 v0] d]; [done|]. intros _. simpl.
  by destruct (String.eqb_spec k0 k) as [->|Hne].
Qed.

(** The neighbour a node lists first stays first when a connection is
    added. *)
Lemma first_neighbour_add_connection g c a k :
  (forall n, is_valid_node g n = true -> is_Some (edges g !! n)) ->
  head (get_neighbors g a).*1 = Some k ->
  head (get_neighbors (add_connection g c) a).*1 = Some k.
Proof.
  intros Hadj Hk. destruct c as [[n1 n2] d].
  rewrite get_neighbors_add_connection by done.
  destruct (is_valid_node g n1 && is_valid_node g n2); [|done].
  assert (forall k' v' (l : list (string * Z)),
            head l.*1 = Some k -> head (dict_set k' v' l).*1 = Some k) as Hset.
  { intros k' v' l Hl. rewrite dict_set_head; [done|]. by destruct l. }
  destruct (decide (a = n2)), (decide (a = n1)); auto.
Qed.

Lemma first_neighbour_add_connections connections g a k :
  graph_built g ->
  head (get_neighbors g a).*1 = Some k ->
  head (get_neighbors (add_connections connections g) a).*1 = Some k.
Proof.
  rewrite add_connections_foldl. revert g.
  induction connections as [|c l IH]; intros g Hg Hk; [done|].
  simpl. apply IH; [by apply graph_built_add_connection|].
  apply first_neighbour_add_connection; [apply Hg|done].
Qed.

(** The connections that do not name a node leave its neighbours as they
    are. *)
Lemma get_neighbors_unnamed connections g a :
  graph_built g ->
  Forall (fun c => c.1.1 <> a /\ c.1.2 <> a) connections ->
  get_neighbors (add_connections connections g) a = get_neighbors g a.
Proof.
  rewrite add_connections_foldl. revert g.
  induction connections as [|c l IH]; intros g Hg Hall; [done|].
  apply Forall_cons in Hall as [[H1 H2] Hall]. simpl.
  rewrite IH by (done || by apply graph_built_add_connection).
  destruct c as [[n1 n2] d]. simpl in H1, H2.
  rewrite get_neighbors_add_connection by apply Hg.
  destruct (is_valid_node g n1 && is_valid_node g n2); [|done].
  by rewrite !decide_False.
Qed.

(** Whether a search succeeds: between two nodes of the graph, when one
    reaches the other. *)
Lemma search_success_iff st g start goal :
  exists r, search st g start goal = Some r /\
    (success r = true <->
     is_valid_node g start = true /\ is_valid_node g goal = true /\
     reachable g start goal).
Proof.
  destruct (is_valid_node g start) eqn:Hs; [destruct (is_valid_node g goal) eqn:Hg|].
  - destruct (search_valid st g start goal Hs Hg) as (r & Hr & _ & _ & _ & Hcases).
    exists r. split; [done|].
    destruct Hcases as [(Hsucc & Hpath & _)|(Heq & Hno & _)].
    + split; [|done]. intros _. split; [done|]. split; [done|]. by exists (path r).
    + rewrite Heq. simpl. split; [done|]. by intros (_ & _ & Hreach).
  - rewrite search_invalid by auto. eexists. split; [done|]. simpl.
    split; [done|]. by intros (_ & ? & _).
  - rewrite search_invalid by auto. eexists. split; [done|]. simpl.
    split; [done|]. by intros (? & _).
Qed.

(** * Properties of the constructor *)

(** X1.  The graph the constructor builds is undirected: whatever the table
    of coordinates and the list of connections, [get_distance] gives from
    [a] to [b] what it gives from [b] to [a], the same distance or none. *)
Theorem constructor_graph_is_undirected coords connections a b :
  get_distance (make_graph coords connections) a b
  = get_distance (make_graph coords connections) b a.
Proof. apply make_graph_built. Qed.

(** X2.  Every edge of the graph the constructor builds joins two names of
    the table of coordinates: a connection that names a place without
    coordinates is skipped, in both directions. *)
Theorem constructor_edges_join_nodes coords connections a b w :
  (b, w) ∈ get_neighbors (make_graph coords connections) a ->
  a ∈ coords.*1 /\ b ∈ coords.*1.
Proof.
  intros Hin.
  apply (built_closed _ (make_graph_built coords connections)) in Hin as [Ha Hb].
  split; by apply (make_graph_valid coords connections).
Qed.

Lemma constructor_edges_join_nodes_witness :
  ("B", 70) ∈ get_neighbors
                (make_graph [("A", (0, 0)); ("B", (3, 4))]
                            [("A", "B", 70); ("A", "Z", 5)]) "A" /\
  "A" ∈ [("A", (0, 0)); ("B", (3, 4))].*1 /\
  "B" ∈ [("A", (0, 0)); ("B", (3, 4))].*1.
Proof.
  split; [vm_compute; left|].
  apply (constructor_edges_join_nodes
           [("A", (0, 0)); ("B", (3, 4))] [("A", "B", 70); ("A", "Z", 5)]
           "A" "B" 70).
  vm_compute. left.
Defined.

(** X3.  The constructor adds no edge of its own: a distance that
    [get_distance] gives between two nodes is that of a connection of the
    list, written in one direction or the other. *)
Theorem constructor_only_listed_edges coords connections a b d :
  get_distance (make_graph coords connections) a b = Some d ->
  (a, b, d) ∈ connections \/ (b, a, d) ∈ connections.
Proof.
  intros Hd. unfold make_graph in Hd.
  destruct (add_connections_listed connections _ a b d
              (graph_built_init coords _) Hd) as [Hd'|(c & Hc & Hj & Hcd)].
  - unfold get_distance in Hd'. rewrite init_nodes_edges in Hd'.
    by destruct (decide (a ∈ coords.*1)).
  - destruct c as [[n1 n2] d']. simpl in Hcd. subst d'.
    destruct Hj as [[H1 H2]|[H1 H2]]; simpl in H1, H2; subst; [by left|by right].
Qed.

Lemma constructor_only_listed_edges_witness :
  get_distance (make_graph [("A", (0, 0)); ("B", (3, 4))]
                           [("A", "B", 70); ("A", "Z", 5)]) "B" "A" = Some 70 /\
  (("B", "A", 70) ∈ [("A", "B", 70); ("A", "Z", 5)] \/
   ("A", "B", 70) ∈ [("A", "B", 70); ("A", "Z", 5)]).
Proof.
  split; [vm_compute; reflexivity|].
  apply (constructor_only_listed_edges
           [("A", (0, 0)); ("B", (3, 4))] [("A", "B", 70); ("A", "Z", 5)]
           "B" "A" 70).
  vm_compute. reflexivity.
Defined.

(** X4.  When the list of connections joins two nodes more than once, the
    distance of the last such connection is the one the graph keeps, in
    both directions: a connection between two names of the table followed
    by no other connection of the same two nodes decides their distance. *)
Theorem constructor_later_distance_wins coords before after a b d :
  a ∈ coords.*1 -> b ∈ coords.*1 ->
  Forall (fun c => ~ joins a b c) after ->
  get_distance (make_graph coords (before ++ (a, b, d) :: after)) a b = Some d /\
  get_distance (make_graph coords (before ++ (a, b, d) :: after)) b a = Some d.
Proof.
  intros Ha Hb Hafter.
  assert (get_distance (make_graph coords (before ++ (a, b, d) :: after)) a b
          = Some d) as Hd.
  { unfold make_graph. rewrite add_connections_foldl, foldl_app. cbn [foldl].
    rewrite <- !add_connections_foldl.
    set (g0 := init_nodes coords _).
    assert (graph_built (add_connections before g0)) as Hbuilt
      by apply graph_built_add_connections, graph_built_init.
    rewrite add_connections_others by (done || by apply graph_built_add_connection).
    rewrite get_distance_add_connection by apply Hbuilt. cbn [fst snd].
    rewrite !add_connections_valid.
    apply (make_graph_valid coords []) in Ha, Hb.
    unfold make_graph in Ha, Hb.
    rewrite add_connections_foldl in Ha, Hb. cbn [foldl] in Ha, Hb.
    fold g0 in Ha, Hb. rewrite Ha, Hb. cbn [andb].
    rewrite decide_True; [done|]. by left. }
  split; [done|].
  by rewrite <- (built_symmetric _ (make_graph_built coords _)).
Qed.

Lemma constructor_later_distance_wins_witness :
  "Girls Hostel" ∈ campus_coordinates.*1 /\
  "Mart" ∈ campus_coordinates.*1 /\
  Forall (fun c => ~ joins "Girls Hostel" "Mart" c)
         (drop 41 campus_connections) /\
  get_distance
    (make_graph campus_coordinates
       (take 40 campus_connections
        ++ ("Girls Hostel", "Mart", 50) :: drop 41 campus_connections))
    "Girls Hostel" "Mart" = Some 50 /\
  get_distance
    (make_graph campus_coordinates
       (take 40 campus_connections
        ++ ("Girls Hostel", "Mart", 50) :: drop 41 campus_connections))
    "Mart" "Girls Hostel" = Some 50.
Proof.
  split; [apply (bool_decide_unpack _); vm_compute; exact I|].
  split; [apply (bool_decide_unpack _); vm_compute; exact I|].
  split; [apply (bool_decide_unpack _); vm_compute; exact I|].
  apply (constructor_later_distance_wins campus_coordinates
           (take 40 campus_connections) (drop 41 campus_connections)
           "Girls Hostel" "Mart" 50);
    apply (bool_decide_unpack _); vm_compute; exact I.
Defined.

(** X5.  The nodes of the graph the constructor builds are the names of the
    table of coordinates, and what a node records as its coordinates is
    its entry in the table [coordinates]. *)
Theorem constructor_nodes_are_coordinates coords connections :
  nodes (make_graph coords connections)
  = coordinates (make_graph coords connections) /\
  forall n, is_valid_node (make_graph coords connections) n = true
            <-> n ∈ coords.*1.
Proof.
  split; [|intros n; apply make_graph_valid].
  unfold make_graph.
  by rewrite add_connections_nodes, add_connections_coordinates,
    init_nodes_nodes, init_nodes_coordinates.
Qed.



(** * Properties of [get_path_distance] and [euclidean_distance] *)

(** X7.  [get_path_distance] gives the sum of the distances of the
    consecutive pairs of the path when every pair is an edge (0 for a path
    of fewer than two nodes), and infinity as soon as one pair is not. *)
Theorem path_distance_sum_or_infinity g p :
  get_path_distance g p
  = if is_walk g p then Finite (walk_weight g (fun w => w) p) else Infinite.
Proof. apply get_path_distance_spec. Qed.

(** X8.  On a graph the constructor built a path costs the same walked
    backwards: [get_path_distance] of the reversed list is that of the
    list, infinity included. *)
Theorem path_distance_reverse coords connections p :
  get_path_distance (make_graph coords connections) (reverse p)
  = get_path_distance (make_graph coords connections) p.
Proof. apply get_path_distance_reverse, make_graph_built. Qed.

(** X9.  The distance of a path through a node [x] is the sum of the
    distances of its two legs, up to [x] and from [x] on; it is infinity
    when a leg is. *)
Theorem path_distance_concat g p x q :
  get_path_distance g (p ++ x :: q)
  = distance_add (get_path_distance g (p ++ [x]))
                 (get_path_distance g (x :: q)).
Proof. apply get_path_distance_app. Qed.

(** X10.  The heuristic is exactly 0.0 between two names with the same
    coordinates, so from a node to itself. *)
Theorem euclidean_distance_same_place g a b c :
  coordinates g !! a = Some c -> coordinates g !! b = Some c ->
  euclidean_distance g a b = Float.zero.
Proof.
  intros Ha Hb. unfold euclidean_distance. rewrite Ha, Hb.
  destruct c as [x y]. rewrite !Z.sub_diag. vm_compute. reflexivity.
Qed.

Lemma euclidean_distance_same_place_witness :
  coordinates campus !! "Block A" = Some (353, 1384) /\
  coordinates campus !! "Auditorium" = Some (353, 1384) /\
  euclidean_distance campus "Block A" "Auditorium" = Float.zero.
Proof.
  split; [vm_compute; reflexivity|]. split; [vm_compute; reflexivity|].
  apply (euclidean_distance_same_place campus "Block A" "Auditorium"
           (353, 1384)); vm_compute; reflexivity.
Defined.

(** * Properties of the four strategies *)

(** X11.  The path of a successful result of any strategy is a path of the
    graph from [start] to [goal] that goes through no node twice, and
    every node on it is in the exploration trace. *)
Theorem search_path_is_simple st g start goal r :
  search st g start goal = Some r -> success r = true ->
  connects g start goal (path r) /\ NoDup (path r) /\
  forall x, x ∈ path r -> x ∈ exploration_order r.
Proof.
  intros Hr Hsucc.
  destruct (is_valid_node g start) eqn:Hs; [destruct (is_valid_node g goal) eqn:Hg|].
  - destruct (search_valid st g start goal Hs Hg) as (r' & Hr' & _ & _ & _ & Hcases).
    rewrite Hr in Hr'. injection Hr' as <-.
    destruct (search_trace st g start goal Hs Hg) as (r' & Hr' & _ & _ & Hnd & Hsub).
    rewrite Hr in Hr'. injection Hr' as <-.
    destruct Hcases as [(_ & Hpath & _)|(Heq & _)]; [done|].
    rewrite Heq in Hsucc. done.
  - rewrite search_invalid in Hr by auto. injection Hr as <-. done.
  - rewrite search_invalid in Hr by auto. injection Hr as <-. done.
Qed.

Lemma search_path_is_simple_witness :
  search DFS scenario "A" "D"
  = Some {| path := ["A"; "B"; "C"; "D"]; cost := Finite 25;
            nodes_explored := ["A"; "B"; "C"; "D"];
            exploration_order := ["A"; "B"; "C"; "D"];
            algorithm := "DFS"; success := true |} /\
  connects scenario "A" "D" ["A"; "B"; "C"; "D"] /\
  NoDup ["A"; "B"; "C"; "D"] /\
  forall x, x ∈ ["A"; "B"; "C"; "D"] -> x ∈ ["A"; "B"; "C"; "D"].
Proof.
  split; [vm_compute; reflexivity|].
  apply (search_path_is_simple DFS scenario "A" "D"
           {| path := ["A"; "B"; "C"; "D"]; cost := Finite 25;
              nodes_explored := ["A"; "B"; "C"; "D"];
              exploration_order := ["A"; "B"; "C"; "D"];
              algorithm := "DFS"; success := true |});
    [vm_compute; reflexivity|reflexivity].
Defined.


(** X13.  Every strategy stops at the goal: in a successful result [goal]
    is the last node of the trace and occurs nowhere before; in a failed
    one it is not in the trace. *)
Theorem goal_explored_last_or_never st g start goal :
  exists r, search st g start goal = Some r /\
    if success r
    then exists before, exploration_order r = before ++ [goal] /\ goal ∉ before
    else goal ∉ exploration_order r.
Proof.
  destruct (is_valid_node g start) eqn:Hs; [destruct (is_valid_node g goal) eqn:Hg|].
  - destruct (search_valid st g start goal Hs Hg) as (r & Hr & _ & Hnd & _ & Hcases).
    exists r. split; [done|].
    destruct Hcases as [(-> & _ & Hlast & _)|(Heq & Hno & Hall)].
    + apply last_Some in Hlast as [before Hbefore]. exists before.
      split; [done|]. rewrite Hbefore in Hnd.
      apply NoDup_app in Hnd as (_ & Hnot & _). intros Hin.
      apply (Hnot goal Hin). left.
    + assert (success r = false) as -> by (by rewrite Heq).
      intros Hin. by apply Hall in Hin.
  - rewrite search_invalid by auto. eexists. split; [done|]. simpl.
    intros Hin. inversion Hin.
  - rewrite search_invalid by auto. eexists. split; [done|]. simpl.
    intros Hin. inversion Hin.
Qed.

(** X14.  Between two nodes of the graph the trace of every strategy
    begins with [start], and every node in it is within reach of [start]:
    nothing is explored that no path leads to. *)
Theorem exploration_starts_at_start st g start goal :
  is_valid_node g start = true -> is_valid_node g goal = true ->
  exists r, search st g start goal = Some r /\
    head (exploration_order r) = Some start /\
    forall x, x ∈ exploration_order r -> reachable g start x.
Proof.
  intros Hs Hg.
  destruct (search_trace st g start goal Hs Hg) as (r & Hr & Hhead & Hreach & _).
  by exists r.
Qed.

Lemma exploration_starts_at_start_witness :
  is_valid_node campus "Main Gate" = true /\
  is_valid_node campus "Mart" = true /\
  exists r, search AStar campus "Main Gate" "Mart" = Some r /\
    head (exploration_order r) = Some "Main Gate" /\
    forall x, x ∈ exploration_order r -> reachable campus "Main Gate" x.
Proof.
  split; [vm_compute; reflexivity|]. split; [vm_compute; reflexivity|].
  apply (exploration_starts_at_start AStar campus "Main Gate" "Mart");
    vm_compute; reflexivity.
Defined.

(** X15.  On a graph whose edges lead to nodes of the graph no strategy
    explores more nodes than the graph has, and the path it returns is no
    longer than its trace. *)
Theorem exploration_bounded_by_nodes st g start goal :
  (forall a b w, (b, w) ∈ get_neighbors g a -> is_valid_node g b = true) ->
  exists r, search st g start goal = Some r /\
    (length (exploration_order r) <= size (nodes g))%nat /\
    (length (path r) <= length (exploration_order r))%nat.
Proof.
  intros Hclosed.
  destruct (is_valid_node g start) eqn:Hs; [destruct (is_valid_node g goal) eqn:Hg|].
  - destruct (search_valid st g start goal Hs Hg) as (r & Hr & _ & Hnd & _).
    destruct (search_trace st g start goal Hs Hg)
      as (r' & Hr' & _ & Hreach & Hnd' & Hsub).
    rewrite Hr in Hr'. injection Hr' as <-.
    exists r. split; [done|]. split.
    + apply nodes_length_le; [done|]. intros x Hx.
      by apply (reachable_valid g start x Hclosed Hs), Hreach.
    + by apply submseteq_length, NoDup_submseteq.
  - rewrite search_invalid by auto. eexists. split; [done|]. simpl. lia.
  - rewrite search_invalid by auto. eexists. split; [done|]. simpl. lia.
Qed.

Lemma exploration_bounded_by_nodes_witness :
  (forall a b w, (b, w) ∈ get_neighbors campus a ->
                 is_valid_node campus b = true) /\
  exists r, search DFS campus "Main Gate" "Library" = Some r /\
    (length (exploration_order r) <= size (nodes campus))%nat /\
    (length (path r) <= length (exploration_order r))%nat.
Proof.
  assert (forall a b w, (b, w) ∈ get_neighbors campus a ->
                        is_valid_node campus b = true) as Hclosed.
  { intros a b w Hin. by apply (built_closed _ campus_built) in Hin as [_ Hb]. }
  split; [exact Hclosed|].
  apply (exploration_bounded_by_nodes DFS campus "Main Gate" "Library" Hclosed).
Defined.

(** X16.  The count [num_nodes_explored] that [SearchResult] computes as
    [len(set(nodes_explored))] is, for the result of every strategy, the
    length of its exploration trace: the set drops nothing. *)
Theorem explored_count_is_trace_length st g start goal :
  exists r, search st g start goal = Some r /\
    num_nodes_explored r = length (exploration_order r).
Proof.
  destruct (search_total st g start goal) as (r & Hr & Heq & Hnd).
  exists r. split; [done|]. unfold num_nodes_explored. rewrite Heq.
  by apply size_list_to_set.
Qed.

(** X17.  Uniform-cost search returns a cheapest path: on a graph without
    negative weights, when [goal] is within reach of [start], it returns a
    path of the graph from [start] to [goal], reports its distance, and
    no path from [start] to [goal] has a smaller distance. *)
Theorem ucs_returns_cheapest_path g start goal :
  graph_wf g -> nonneg_weights g ->
  is_valid_node g start = true -> is_valid_node g goal = true ->
  reachable g start goal ->
  exists r, uniform_cost_search g start goal = Some r /\
    success r = true /\
    connects g start goal (path r) /\
    get_path_distance g (path r) = cost r /\
    forall q, connects g start goal q ->
              distance_le (cost r) (get_path_distance g q).
Proof. apply uniform_cost_search_optimal. Qed.

Lemma ucs_returns_cheapest_path_witness :
  graph_wf scenario /\ nonneg_weights scenario /\
  is_valid_node scenario "A" = true /\ is_valid_node scenario "D" = true /\
  reachable scenario "A" "D" /\
  exists r, uniform_cost_search scenario "A" "D" = Some r /\
    success r = true /\
    connects scenario "A" "D" (path r) /\
    get_path_distance scenario (path r) = cost r /\
    forall q, connects scenario "A" "D" q ->
              distance_le (cost r) (get_path_distance scenario q).
Proof.
  assert (graph_wf scenario) as Hwf
    by (apply (bool_decide_unpack _); vm_compute; exact I).
  assert (nonneg_weights scenario) as Hnn
    by (apply (bool_decide_unpack _); vm_compute; exact I).
  assert (reachable scenario "A" "D") as Hreach
    by (exists ["A"; "B"; "C"; "D"]; repeat split; vm_compute; reflexivity).
  split; [exact Hwf|]. split; [exact Hnn|].
  split; [vm_compute; reflexivity|]. split; [vm_compute; reflexivity|].
  split; [exact Hreach|].
  apply (ucs_returns_cheapest_path scenario "A" "D" Hwf Hnn);
    [vm_compute; reflexivity|vm_compute; reflexivity|exact Hreach].
Defined.

(** X18.  Uniform-cost search explores the nodes in the order of their
    distance from [start]: on a graph without negative weights every node
    of the trace has a cheapest path from [start], and the distances [ds]
    of these cheapest paths, in the order of the trace, never decrease. *)
Theorem ucs_explores_by_cost g start goal :
  graph_wf g -> nonneg_weights g ->
  exists r ds, uniform_cost_search g start goal = Some r /\
    Forall2 (least_weight g (fun w => w) start) (exploration_order r) ds /\
    StronglySorted Z.le ds.
Proof.
  intros Hwf Hnn.
  assert (forall x y w, get_distance g x y = Some w -> 0 <= w) as Hpos.
  { intros x y w Hd. eapply neighbors_nonneg; [done|].
    by apply get_distance_neighbors. }
  unfold uniform_cost_search.
  destruct (negb (is_valid_node g start) || negb (is_valid_node g goal)).
  { exists (no_path "UCS" [] []), []. split; [done|]. split; constructor. }
  destruct (decide (start = goal)) as [->|Hne].
  { exists (trivial_path "UCS" goal), [0]. split; [done|]. simpl. split.
    - constructor; [|constructor].
      by apply (least_weight_start g (fun w => w)).
    - repeat constructor. }
  apply (search_loop_ranked g "UCS" start goal e_cost (fun w => w) Hpos
           (fun e V c => ucs_child_rank g e V c Hwf)
           (ucs_body g goal) (fun s => s) (fun _ => True))
    with (e0 := (0, start, [start])); try done.
  intros s _. rewrite step_view_id. apply ucs_body_turn.
Qed.

Lemma ucs_explores_by_cost_witness :
  graph_wf scenario /\ nonneg_weights scenario /\
  exists r ds, uniform_cost_search scenario "A" "D" = Some r /\
    Forall2 (least_weight scenario (fun w => w) "A") (exploration_order r) ds /\
    StronglySorted Z.le ds.
Proof.
  assert (graph_wf scenario) as Hwf
    by (apply (bool_decide_unpack _); vm_compute; exact I).
  assert (nonneg_weights scenario) as Hnn
    by (apply (bool_decide_unpack _); vm_compute; exact I).
  split; [exact Hwf|]. split; [exact Hnn|].
  apply (ucs_explores_by_cost scenario "A" "D" Hwf Hnn).
Defined.

(** X19.  Breadth-first search explores the nodes in the order of their
    distance in edges from [start]: every node of the trace has a path
    from [start] with the fewest edges, and these numbers of edges [ds],
    in the order of the trace, never decrease. *)
Theorem bfs_explores_by_depth g start goal :
  exists r ds, breadth_first_search g start goal = Some r /\
    Forall2 (least_weight g (fun _ => 1) start) (exploration_order r) ds /\
    StronglySorted Z.le ds.
Proof.
  unfold breadth_first_search.
  destruct (negb (is_valid_node g start) || negb (is_valid_node g goal)).
  { exists (no_path "BFS" [] []), []. split; [done|]. split; constructor. }
  destruct (decide (start = goal)) as [->|Hne].
  { exists (trivial_path "BFS" goal), [0]. split; [done|]. simpl. split.
    - constructor; [|constructor].
      apply (least_weight_start g (fun _ => 1)). intros; lia.
    - repeat constructor. }
  apply (search_loop_ranked g "BFS" start goal bfs_rank (fun _ => 1)
           ltac:(intros; lia) (bfs_child_rank g)
           (bfs_body g goal) (fun s => s) bfs_inv)
    with (e0 := (start, [start], 0)); try done.
  - intros s Hs. rewrite step_view_id. by apply bfs_body_turn.
  - apply bfs_body_inv.
  - exists 0, [(start, [start], 0)], []. repeat split; by repeat constructor.
Qed.




(** X22.  On a graph the constructor built, the successful result of any
    strategy reports the distance [get_path_distance] computes for its
    path, and every node of the path is a name of the table of
    coordinates. *)
Theorem built_graph_path_cost coords connections st start goal r :
  search st (make_graph coords connections) start goal = Some r ->
  success r = true ->
  get_path_distance (make_graph coords connections) (path r) = cost r /\
  forall x, x ∈ path r -> x ∈ coords.*1.
Proof.
  intros Hr Hsucc. set (g := make_graph coords connections) in *.
  pose proof (make_graph_built coords connections) as Hbuilt. fold g in Hbuilt.
  destruct (search_success_iff st g start goal) as (r' & Hr' & Hiff).
  rewrite Hr in Hr'. injection Hr' as <-.
  destruct (proj1 Hiff Hsucc) as (Hs & Hg & _).
  destruct (search_valid st g start goal Hs Hg) as (r' & Hr' & _ & _ & _ & Hcases).
  rewrite Hr in Hr'. injection Hr' as <-.
  destruct (search_trace st g start goal Hs Hg) as (r' & Hr' & _ & Hreach & _ & Hsub).
  rewrite Hr in Hr'. injection Hr' as <-.
  destruct Hcases as [(_ & _ & _ & Hcost)|(Heq & _)];
    [|rewrite Heq in Hsucc; done].
  split; [apply Hcost, Hbuilt|].
  intros x Hx. apply (make_graph_valid coords connections).
  apply (reachable_valid g start x); [|done|by apply Hreach, Hsub].
  intros a b w Hin. by apply (built_closed _ Hbuilt) in Hin as [_ Hb].
Qed.

Lemma built_graph_path_cost_witness :
  search UCS
    (make_graph
       [("A", (0, 0)); ("B", (10, 0)); ("C", (5, 0)); ("D", (10, 5));
        ("E", (50, 50))]
       [("A", "B", 10); ("B", "C", 10); ("A", "C", 5); ("C", "D", 5)])
    "A" "D"
  = Some {| path := ["A"; "C"; "D"]; cost := Finite 10;
            nodes_explored := ["A"; "C"; "B"; "D"];
            exploration_order := ["A"; "C"; "B"; "D"];
            algorithm := "UCS"; success := true |} /\
  get_path_distance
    (make_graph
       [("A", (0, 0)); ("B", (10, 0)); ("C", (5, 0)); ("D", (10, 5));
        ("E", (50, 50))]
       [("A", "B", 10); ("B", "C", 10); ("A", "C", 5); ("C", "D", 5)])
    ["A"; "C"; "D"] = Finite 10 /\
  forall x, x ∈ ["A"; "C"; "D"] ->
    x ∈ [("A", (0, 0)); ("B", (10, 0)); ("C", (5, 0)); ("D", (10, 5));
         ("E", (50, 50))].*1.
Proof.
  split; [vm_compute; reflexivity|].
  apply (built_graph_path_cost
           [("A", (0, 0)); ("B", (10, 0)); ("C", (5, 0)); ("D", (10, 5));
            ("E", (50, 50))]
           [("A", "B", 10); ("B", "C", 10); ("A", "C", 5); ("C", "D", 5)]
           UCS "A" "D"
           {| path := ["A"; "C"; "D"]; cost := Finite 10;
              nodes_explored := ["A"; "C"; "B"; "D"];
              exploration_order := ["A"; "C"; "B"; "D"];
              algorithm := "UCS"; success := true |});
    [vm_compute; reflexivity|reflexivity].
Defined.


(** X24.  On a graph the constructor built from distances that are not
    negative, uniform-cost search returns the same cost from [a] to [b] as
    from [b] to [a]. *)
Theorem ucs_cost_symmetric coords connections a b :
  Forall (fun c => 0 <= c.2) connections ->
  exists r1 r2,
    uniform_cost_search (make_graph coords connections) a b = Some r1 /\
    uniform_cost_search (make_graph coords connections) b a = Some r2 /\
    success r1 = success r2 /\ cost r1 = cost r2.
Proof.
  intros Hall. set (g := make_graph coords connections).
  pose proof (make_graph_built coords connections) as Hbuilt. fold g in Hbuilt.
  pose proof (built_symmetric _ Hbuilt) as Hsym.
  pose proof (built_wf _ Hbuilt) as Hwf.
  pose proof (make_graph_nonneg coords connections Hall) as Hnn. fold g in Hnn.
  destruct (search_success_iff UCS g a b) as (r1 & Hr1 & H1).
  destruct (search_success_iff UCS g b a) as (r2 & Hr2 & H2).
  exists r1, r2. split; [done|]. split; [done|].
  destruct (success r1) eqn:Hs1.
  - destruct (proj1 H1 eq_refl) as (Ha & Hb & Hreach).
    pose proof (reachable_symmetric g a b Hsym Hreach) as Hback.
    assert (success r2 = true) as Hs2 by (by apply H2).
    split; [done|].
    destruct (uniform_cost_search_optimal g a b Hwf Hnn Ha Hb Hreach)
      as (r1' & Hr1' & _ & Hp1 & Hc1 & Hmin1).
    simpl in Hr1. rewrite Hr1 in Hr1'. injection Hr1' as <-.
    destruct (uniform_cost_search_optimal g b a Hwf Hnn Hb Ha Hback)
      as (r2' & Hr2' & _ & Hp2 & Hc2 & Hmin2).
    simpl in Hr2. rewrite Hr2 in Hr2'. injection Hr2' as <-.
    apply distance_le_antisym.
    + rewrite <- Hc2, <- (get_path_distance_reverse g (path r2) Hsym).
      by apply Hmin1, connects_reverse.
    + rewrite <- Hc1, <- (get_path_distance_reverse g (path r1) Hsym).
      by apply Hmin2, connects_reverse.
  - assert (success r2 = false) as Hs2.
    { destruct (success r2); [|done].
      destruct (proj1 H2 eq_refl) as (Hb & Ha & Hreach). symmetry. apply H1.
      repeat split; try done. by apply reachable_symmetric. }
    split; [done|].
    destruct (search_failure UCS g a b r1 Hr1 Hs1) as [_ ->].
    by destruct (search_failure UCS g b a r2 Hr2 Hs2) as [_ ->].
Qed.

Lemma ucs_cost_symmetric_witness :
  Forall (fun c => 0 <= c.2) campus_connections /\
  exists r1 r2,
    uniform_cost_search (make_graph campus_coordinates campus_connections)
      "Main Gate" "Mart" = Some r1 /\
    uniform_cost_search (make_graph campus_coordinates campus_connections)
      "Mart" "Main Gate" = Some r2 /\
    success r1 = success r2 /\ cost r1 = cost r2.
Proof.
  split; [apply (bool_decide_unpack _); vm_compute; exact I|].
  apply (ucs_cost_symmetric campus_coordinates campus_connections
           "Main Gate" "Mart").
  apply (bool_decide_unpack _). vm_compute. exact I.
Defined.

(** X25.  The costs uniform-cost search returns obey the triangle
    inequality: on a graph without negative weights, going from [a] to
    [c] costs at most what going from [a] to [b] and then from [b] to [c]
    costs. *)
Theorem ucs_triangle_inequality g a b c :
  graph_wf g -> nonneg_weights g ->
  is_valid_node g a = true -> is_valid_node g b = true ->
  is_valid_node g c = true ->
  reachable g a b -> reachable g b c ->
  exists r1 r2 r3,
    uniform_cost_search g a b = Some r1 /\
    uniform_cost_search g b c = Some r2 /\
    uniform_cost_search g a c = Some r3 /\
    success r3 = true /\
    distance_le (cost r3) (distance_add (cost r1) (cost r2)).
Proof.
  intros Hwf Hnn Ha Hb Hc Hab Hbc.
  destruct (uniform_cost_search_optimal g a b Hwf Hnn Ha Hb Hab)
    as (r1 & Hr1 & _ & Hp1 & Hc1 & _).
  destruct (uniform_cost_search_optimal g b c Hwf Hnn Hb Hc Hbc)
    as (r2 & Hr2 & _ & Hp2 & Hc2 & _).
  assert (exists p, path r1 = p ++ [b]) as [p Hp]
    by (apply last_Some, Hp1).
  assert (exists q, path r2 = b :: q) as [q Hq].
  { destruct Hp2 as (Hh & _). destruct (path r2) as [|b' q]; [done|].
    injection Hh as ->. by exists q. }
  rewrite Hp in Hp1, Hc1. rewrite Hq in Hp2, Hc2.
  pose proof (connects_app g a b c p q Hp1 Hp2) as Hac.
  destruct (uniform_cost_search_optimal g a c Hwf Hnn Ha Hc
              (ex_intro _ _ Hac)) as (r3 & Hr3 & Hs3 & _ & _ & Hmin3).
  exists r1, r2, r3. repeat split; try done.
  rewrite <- Hc1, <- Hc2, <- get_path_distance_app. by apply Hmin3.
Qed.

Lemma ucs_triangle_inequality_witness :
  graph_wf scenario /\ nonneg_weights scenario /\
  is_valid_node scenario "A" = true /\ is_valid_node scenario "B" = true /\
  is_valid_node scenario "D" = true /\
  reachable scenario "A" "B" /\ reachable scenario "B" "D" /\
  exists r1 r2 r3,
    uniform_cost_search scenario "A" "B" = Some r1 /\
    uniform_cost_search scenario "B" "D" = Some r2 /\
    uniform_cost_search scenario "A" "D" = Some r3 /\
    success r3 = true /\
    distance_le (cost r3) (distance_add (cost r1) (cost r2)).
Proof.
  assert (graph_wf scenario) as Hwf
    by (apply (bool_decide_unpack _); vm_compute; exact I).
  assert (nonneg_weights scenario) as Hnn
    by (apply (bool_decide_unpack _); vm_compute; exact I).
  assert (reachable scenario "A" "B") as Hab
    by (exists ["A"; "B"]; repeat split; vm_compute; reflexivity).
  assert (reachable scenario "B" "D") as Hbd
    by (exists ["B"; "C"; "D"]; repeat split; vm_compute; reflexivity).
  split; [exact Hwf|]. split; [exact Hnn|].
  split; [vm_compute; reflexivity|]. split; [vm_compute; reflexivity|].
  split; [vm_compute; reflexivity|].
  split; [exact Hab|]. split; [exact Hbd|].
  apply (ucs_triangle_inequality scenario "A" "B" "D" Hwf Hnn);
    [vm_compute; reflexivity|vm_compute; reflexivity|vm_compute; reflexivity
    |exact Hab|exact Hbd].
Defined.

(** X26.  Breadth-first and depth-first search both explore, right after
    [start], the neighbour that the adjacency dict of [start] lists first
    (depth-first search reverses the neighbours before it stacks them,
    so that the first one is on top). *)
Theorem first_neighbour_explored_second st g start goal n1 w1 rest :
  st = BFS \/ st = DFS ->
  is_valid_node g start = true -> is_valid_node g goal = true ->
  start <> goal ->
  get_neighbors g start = (n1, w1) :: rest -> n1 <> start ->
  exists r more, search st g start goal = Some r /\
    exploration_order r = start :: n1 :: more.
Proof.
  intros Hst Hs Hg Hne Hnbrs Hn1.
  destruct Hst as [-> | ->]; simpl;
    unfold breadth_first_search, depth_first_search;
    rewrite Hs, Hg; cbn [negb orb]; rewrite decide_False by done.
  - by apply (bfs_second g start goal n1 w1 rest).
  - by apply (dfs_second g start goal n1 w1 rest).
Qed.

Lemma first_neighbour_explored_second_witness :
  (DFS = BFS \/ DFS = DFS) /\
  is_valid_node campus "Main Gate" = true /\
  is_valid_node campus "Library" = true /\
  "Main Gate" <> "Library" /\
  get_neighbors campus "Main Gate"
  = ("Security Office", 70) :: tail (get_neighbors campus "Main Gate") /\
  "Security Office" <> "Main Gate" /\
  exists r more, search DFS campus "Main Gate" "Library" = Some r /\
    exploration_order r = "Main Gate" :: "Security Office" :: more.
Proof.
  split; [by right|].
  split; [vm_compute; reflexivity|]. split; [vm_compute; reflexivity|].
  split; [done|]. split; [vm_compute; reflexivity|]. split; [done|].
  apply (first_neighbour_explored_second DFS campus "Main Gate" "Library"
           "Security Office" 70 (tail (get_neighbors campus "Main Gate")));
    [by right|vm_compute; reflexivity|vm_compute; reflexivity|done
    |vm_compute; reflexivity|done].
Defined.

(** X27.  The adjacency dict of a node lists first the node it is joined
    to by the first connection of the list that names it: later
    connections add neighbours behind, or change a distance in place. *)
Theorem constructor_first_neighbour coords before after a b c :
  a ∈ coords.*1 -> b ∈ coords.*1 -> joins a b c ->
  Forall (fun c' => c'.1.1 <> a /\ c'.1.2 <> a) before ->
  head (get_neighbors (make_graph coords (before ++ c :: after)) a).*1
  = Some b.
Proof.
  intros Ha Hb Hj Hbefore.
  unfold make_graph. rewrite add_connections_foldl, foldl_app. cbn [foldl].
  rewrite <- !add_connections_foldl.
  set (g0 := init_nodes coords _).
  assert (graph_built g0) as Hg0 by apply graph_built_init.
  assert (graph_built (add_connections before g0)) as Hg1
    by by apply graph_built_add_connections.
  apply first_neighbour_add_connections;
    [by apply graph_built_add_connection|].
  destruct c as [[n1 n2] d].
  rewrite get_neighbors_add_connection by apply Hg1.
  rewrite get_neighbors_unnamed by done.
  assert (get_neighbors g0 a = []) as ->.
  { unfold get_neighbors, g0. rewrite init_nodes_edges.
    by destruct (decide (a ∈ coords.*1)). }
  rewrite !add_connections_valid.
  apply (make_graph_valid coords []) in Ha, Hb.
  unfold make_graph in Ha, Hb.
  rewrite add_connections_foldl in Ha, Hb. cbn [foldl] in Ha, Hb.
  fold g0 in Ha, Hb.
  destruct Hj as [[H1 H2]|[H1 H2]]; simpl in H1, H2; subst n1 n2;
    rewrite Ha, Hb; cbn [andb];
    repeat case_decide; subst; simpl;
    rewrite ?String.eqb_refl; try done.
Qed.

Lemma constructor_first_neighbour_witness :
  "Main Gate" ∈ campus_coordinates.*1 /\
  "Security Office" ∈ campus_coordinates.*1 /\
  joins "Main Gate" "Security Office" ("Security Office", "Main Gate", 70) /\
  Forall (fun c' => c'.1.1 <> "Main Gate" /\ c'.1.2 <> "Main Gate")
         (take 1 campus_connections) /\
  head (get_neighbors
          (make_graph campus_coordinates
             (take 1 campus_connections
              ++ ("Security Office", "Main Gate", 70)
                 :: drop 2 campus_connections))
          "Main Gate").*1
  = Some "Security Office".
Proof.
  split; [apply (bool_decide_unpack _); vm_compute; exact I|].
  split; [apply (bool_decide_unpack _); vm_compute; exact I|].
  split; [apply (bool_decide_unpack _); vm_compute; exact I|].
  split; [apply (bool_decide_unpack _); vm_compute; exact I|].
  apply (constructor_first_neighbour campus_coordinates
           (take 1 campus_connections) (drop 2 campus_connections)
           "Main Gate" "Security Office"
           ("Security Office", "Main Gate", 70));
    apply (bool_decide_unpack _); vm_compute; exact I.
Defined.
